(** * Session continuity engine of the Unity <-> Gemini relay (server.js)

    The relay is a single-threaded Node.js program: every mutation happens
    inside a callback (a WebSocket event or a timer).  The embedding keeps
    that shape.  A [World] holds the JavaScript objects the callbacks can
    reach (the [clientConnections] map, the heap of [connectionData]
    objects, the heap of [conversationLog] arrays, the sockets and the
    timer table) and each callback is a function from worlds to worlds.

    Conventions.
    - Object identity is an address (a [nat]); the map, the closures and
      the timers hold addresses, so aliasing is what it is in the source.
    - [Date.now()] is an argument of the callback that reads it.
    - A JavaScript string is its list of UTF-16 code units.
    - [console.log] / [console.error] are not modelled.
    - An [await] is collapsed: the outcome of the credential lookup is an
      argument ([Env]) and [setupGeminiConnection] runs in one step. *)

From Stdlib Require Import ZArith NArith String Ascii List Bool Lia.
From stdpp Require Import base option list gmap fin_maps.
Import ListNotations.

Local Open Scope Z_scope.

(* ------------------------------------------------------------------ *)
(** ** JavaScript strings *)

Module JsString.

(** UTF-16 code units. *)
Definition t := list N.

(** A literal of the source; the literals used here are ASCII, where a
    byte is a code unit. *)
Definition lit (s : string) : t :=
  List.map N_of_ascii (list_ascii_of_string s).

(** [WhiteSpace] and [LineTerminator] of ECMAScript, the code points
    that [String.prototype.trim] strips.  They all lie in the BMP, so
    the test is exact on code units. *)
Definition isWhiteSpace (c : N) : bool :=
  ((9 <=? c) && (c <=? 13) || (c =? 32) || (c =? 160) || (c =? 5760)
   || (8192 <=? c) && (c <=? 8202) || (c =? 8232) || (c =? 8233)
   || (c =? 8239) || (c =? 8287) || (c =? 12288) || (c =? 65279))%N.

Fixpoint trimStart (s : t) : t :=
  match s with
  | [] => []
  | c :: s' => if isWhiteSpace c then trimStart s' else s
  end.

Definition trimEnd (s : t) : t := rev (trimStart (rev s)).

Definition trim (s : t) : t := trimEnd (trimStart s).

(** Truthiness of a string value: the empty string is falsy. *)
Definition truthy (s : t) : bool :=
  match s with [] => false | _ :: _ => true end.

Definition eqb (a b : t) : bool := bool_decide (a = b).

Definition blank (s : t) : Prop := Forall (fun c => isWhiteSpace c = true) s.

End JsString.

Abbreviation jsstring := JsString.t.

(* ------------------------------------------------------------------ *)
(** ** Constants *)

Definition PING_INTERVAL : Z := 20000.
Definition PONG_TIMEOUT : Z := 45000.
(** Delays of the two [setTimeout] calls of the upstream close handler. *)
Definition RECONNECT_DELAY : Z := 3000.
Definition FALLBACK_DELAY : Z := 2000.
(** The literal 30 of the history trim. *)
Definition HISTORY_CAP : nat := 30.

(* ------------------------------------------------------------------ *)
(** ** Data model *)

Inductive ReadyState := CONNECTING | OPEN | CLOSING | CLOSED.

Global Instance ReadyState_eq_dec : EqDecision ReadyState.
Proof. solve_decision. Defined.

Inductive Role := user | assistant.

Global Instance Role_eq_dec : EqDecision Role.
Proof. solve_decision. Defined.

(** An element of [conversationLog]. *)
Record Entry := mkEntry {
  role : Role;
  text : jsstring;
  timestamp : Z;
}.

(** The object literal [connectionData] of [setupGeminiConnection].
    [gemini] is the address of the upstream socket, [conversationLog] the
    address of the array, the two timer fields hold a timer handle or
    [null].  [reconnectCount] is a counter that only ever steps by one;
    it stays far below the precision of a JavaScript number and is kept
    as a natural number. *)
Record ConnectionData := mkConnectionData {
  gemini : nat;
  reconnectTimeout : option nat;
  conversationLog : nat;
  pingInterval : option nat;
  lastPong : Z;
  lastPing : Z;
  currentUserText : jsstring;
  currentAssistantText : jsstring;
  reconnectCount : nat;
  audioBuffers : list jsstring;
}.

Definition set_reconnectTimeout (v : option nat) (d : ConnectionData) :=
  mkConnectionData (gemini d) v (conversationLog d) (pingInterval d)
    (lastPong d) (lastPing d) (currentUserText d) (currentAssistantText d)
    (reconnectCount d) (audioBuffers d).

Definition set_conversationLog (v : nat) (d : ConnectionData) :=
  mkConnectionData (gemini d) (reconnectTimeout d) v (pingInterval d)
    (lastPong d) (lastPing d) (currentUserText d) (currentAssistantText d)
    (reconnectCount d) (audioBuffers d).

Definition set_pingInterval (v : option nat) (d : ConnectionData) :=
  mkConnectionData (gemini d) (reconnectTimeout d) (conversationLog d) v
    (lastPong d) (lastPing d) (currentUserText d) (currentAssistantText d)
    (reconnectCount d) (audioBuffers d).

Definition set_lastPong (v : Z) (d : ConnectionData) :=
  mkConnectionData (gemini d) (reconnectTimeout d) (conversationLog d)
    (pingInterval d) v (lastPing d) (currentUserText d)
    (currentAssistantText d) (reconnectCount d) (audioBuffers d).

Definition set_lastPing (v : Z) (d : ConnectionData) :=
  mkConnectionData (gemini d) (reconnectTimeout d) (conversationLog d)
    (pingInterval d) (lastPong d) v (currentUserText d)
    (currentAssistantText d) (reconnectCount d) (audioBuffers d).

Definition set_currentUserText (v : jsstring) (d : ConnectionData) :=
  mkConnectionData (gemini d) (reconnectTimeout d) (conversationLog d)
    (pingInterval d) (lastPong d) (lastPing d) v (currentAssistantText d)
    (reconnectCount d) (audioBuffers d).

Definition set_currentAssistantText (v : jsstring) (d : ConnectionData) :=
  mkConnectionData (gemini d) (reconnectTimeout d) (conversationLog d)
    (pingInterval d) (lastPong d) (lastPing d) (currentUserText d) v
    (reconnectCount d) (audioBuffers d).

Definition set_audioBuffers (v : list jsstring) (d : ConnectionData) :=
  mkConnectionData (gemini d) (reconnectTimeout d) (conversationLog d)
    (pingInterval d) (lastPong d) (lastPing d) (currentUserText d)
    (currentAssistantText d) (reconnectCount d) v.

(** How the upstream socket was authenticated ([createGeminiConnection]). *)
Inductive Credential :=
  | Bearer (token : jsstring)
  | ApiKey (key : jsstring).

(** An upstream [WebSocket] together with what its event handlers close
    over: [clientWs], the [connectionData] literal and the
    [conversationLog] variable of the [setupGeminiConnection] call that
    created it. *)
Record Socket := mkSocket {
  readyState : ReadyState;
  sock_clientWs : nat;
  sock_connectionData : nat;
  sock_conversationLog : nat;
  sock_credential : Credential;
}.

Definition set_readyState (v : ReadyState) (s : Socket) :=
  mkSocket v (sock_clientWs s) (sock_connectionData s)
    (sock_conversationLog s) (sock_credential s).

(** Timer callbacks with the variables they capture.
    - [Watchdog]: the [setInterval] of the open handler; it captures
      [clientWs], [geminiWs] and the object [connection].
    - [Reconnect]: the async [setTimeout] callback of the close handler.
    - [Fallback]: the inner [setTimeout] of its [catch] branch. *)
Inductive Timer :=
  | Watchdog (clientWs geminiWs connection : nat)
  | Reconnect (clientWs : nat)
  | Fallback (clientWs : nat).

Global Instance Timer_eq_dec : EqDecision Timer.
Proof. solve_decision. Defined.

Definition timerDelay (t : Timer) : Z :=
  match t with
  | Watchdog _ _ _ => PING_INTERVAL
  | Reconnect _ => RECONNECT_DELAY
  | Fallback _ => FALLBACK_DELAY
  end.

(** [setInterval] timers stay armed after they fire. *)
Definition isInterval (t : Timer) : bool :=
  match t with Watchdog _ _ _ => true | _ => false end.

(** *** Messages *)

(** A parsed downstream message, by its [type] tag. *)
Inductive ClientMessage :=
  | audio_chunk (audio : jsstring)
  | turn_complete
  | interrupt
  | clear_history
  | user_transcript (text : jsstring)
  | unrecognized.

Record InlineData := mkInlineData {
  mimeType : jsstring;
  data : jsstring;
}.

Record Part := mkPart {
  part_text : option jsstring;
  inlineData : option InlineData;
}.

(** [modelTurn = Some parts] when [serverContent.modelTurn] is present
    ([parts] is [[]] when the field [parts] is missing). *)
Record ServerContent := mkServerContent {
  modelTurn : option (list Part);
  turnComplete : bool;
}.

(** A parsed upstream event. *)
Record GeminiMessage := mkGeminiMessage {
  serverContent : option ServerContent;
}.

(** What the relay writes to an upstream socket.  [Setup log] is the
    handshake; it carries the log that [buildConversationHistory] renders
    into the system instruction. *)
Inductive UpstreamFrame :=
  | Setup (history : list Entry)
  | RealtimeInput (audio : jsstring)
  | EndOfTurn
  | InterruptFrame.

(** Calls made on an upstream socket. *)
Inductive GeminiAction :=
  | Send (f : UpstreamFrame)
  | Ping
  | Close (reason : option (Z * jsstring)).

(** Envelopes sent to the downstream client. *)
Inductive Envelope :=
  | ready (historyRestored : bool) (count : nat)
  | reconnecting (count : nat)
  | gemini_response (m : GeminiMessage)
  | error (message : jsstring)
  | history_cleared.

(** What a credential lookup finds at the moment of the call:
    the result of [getEphemeralToken] ([None] for [null]) and
    [process.env.GEMINI_API_KEY] ([None] when unset). *)
Record Env := mkEnv {
  ephemeralToken : option jsstring;
  GEMINI_API_KEY : option jsstring;
}.

(* ------------------------------------------------------------------ *)
(** ** The world *)

Record World := mkWorld {
  clientConnections : gmap nat nat;       (* Map: clientWs -> connectionData *)
  objects : gmap nat ConnectionData;      (* connectionData objects *)
  arrays : gmap nat (list Entry);         (* conversationLog arrays *)
  sockets : gmap nat Socket;              (* upstream WebSockets *)
  clients : gmap nat ReadyState;          (* clientWs.readyState *)
  timers : gmap nat Timer;                (* armed timers, by handle *)
  nextId : nat;                           (* allocator of addresses and handles *)
  toClient : list (nat * Envelope);       (* clientWs.send, oldest first *)
  toGemini : list (nat * GeminiAction);   (* calls on upstream sockets *)
}.

Definition emptyWorld : World :=
  mkWorld ∅ ∅ ∅ ∅ ∅ ∅ 0%nat [] [].

Definition set_clientConnections v (w : World) :=
  mkWorld v (objects w) (arrays w) (sockets w) (clients w) (timers w)
    (nextId w) (toClient w) (toGemini w).
Definition set_objects v (w : World) :=
  mkWorld (clientConnections w) v (arrays w) (sockets w) (clients w)
    (timers w) (nextId w) (toClient w) (toGemini w).
Definition set_arrays v (w : World) :=
  mkWorld (clientConnections w) (objects w) v (sockets w) (clients w)
    (timers w) (nextId w) (toClient w) (toGemini w).
Definition set_sockets v (w : World) :=
  mkWorld (clientConnections w) (objects w) (arrays w) v (clients w)
    (timers w) (nextId w) (toClient w) (toGemini w).
Definition set_clients v (w : World) :=
  mkWorld (clientConnections w) (objects w) (arrays w) (sockets w) v
    (timers w) (nextId w) (toClient w) (toGemini w).
Definition set_timers v (w : World) :=
  mkWorld (clientConnections w) (objects w) (arrays w) (sockets w)
    (clients w) v (nextId w) (toClient w) (toGemini w).
Definition set_nextId v (w : World) :=
  mkWorld (clientConnections w) (objects w) (arrays w) (sockets w)
    (clients w) (timers w) v (toClient w) (toGemini w).
Definition set_toClient v (w : World) :=
  mkWorld (clientConnections w) (objects w) (arrays w) (sockets w)
    (clients w) (timers w) (nextId w) v (toGemini w).
Definition set_toGemini v (w : World) :=
  mkWorld (clientConnections w) (objects w) (arrays w) (sockets w)
    (clients w) (timers w) (nextId w) (toClient w) v.

(** *** Primitive operations on the world *)

Definition alloc (w : World) : nat * World := (nextId w, set_nextId (S (nextId w)) w).

(** [clientConnections.get(clientWs)]: the address and the object. *)
Definition getConnection (w : World) (clientWs : nat) : option (nat * ConnectionData) :=
  match clientConnections w !! clientWs with
  | Some a => match objects w !! a with
              | Some d => Some (a, d)
              | None => None
              end
  | None => None
  end.

Definition putObject (a : nat) (d : ConnectionData) (w : World) : World :=
  set_objects (<[a := d]> (objects w)) w.

Definition arrayAt (w : World) (addr : nat) : list Entry :=
  default [] (arrays w !! addr).

Definition putArray (addr : nat) (l : list Entry) (w : World) : World :=
  set_arrays (<[addr := l]> (arrays w)) w.

(** [clientWs.readyState === WebSocket.OPEN] *)
Definition clientOpen (w : World) (clientWs : nat) : bool :=
  bool_decide (clients w !! clientWs = Some OPEN).

(** [geminiWs.readyState === WebSocket.OPEN] *)
Definition geminiOpen (w : World) (geminiWs : nat) : bool :=
  bool_decide (readyState <$> sockets w !! geminiWs = Some OPEN).

Definition setReadyState (g : nat) (st : ReadyState) (w : World) : World :=
  set_sockets (alter (set_readyState st) g (sockets w)) w.

Definition sendClient (clientWs : nat) (m : Envelope) (w : World) : World :=
  set_toClient (toClient w ++ [(clientWs, m)]) w.

Definition callGemini (g : nat) (a : GeminiAction) (w : World) : World :=
  set_toGemini (toGemini w ++ [(g, a)]) w.

(** [geminiWs.send(...)] *)
Definition sendGemini (g : nat) (f : UpstreamFrame) (w : World) : World :=
  callGemini g (Send f) w.

(** [geminiWs.close(...)]: the call is recorded and an open (or still
    connecting) socket enters the closing handshake, so its [readyState]
    is no longer [OPEN] when the call returns. *)
Definition closeGemini (g : nat) (reason : option (Z * jsstring)) (w : World) : World :=
  let closing (s : Socket) :=
    match readyState s with
    | OPEN | CONNECTING => set_readyState CLOSING s
    | _ => s
    end in
  callGemini g (Close reason) (set_sockets (alter closing g (sockets w)) w).

(** [setTimeout] / [setInterval]: a fresh handle, the timer armed. *)
Definition setTimer (t : Timer) (w : World) : nat * World :=
  let '(h, w1) := alloc w in
  (h, set_timers (<[h := t]> (timers w1)) w1).

(** [clearTimeout] / [clearInterval] *)
Definition clearTimer (h : nat) (w : World) : World :=
  set_timers (delete h (timers w)) w.

(* ------------------------------------------------------------------ *)
(** ** The callbacks of server.js *)

Section Relay.

(** [Buffer.from(data, "base64").toString("utf-8")] of Node.js. *)
Variable base64ToUtf8 : jsstring -> jsstring.

(** [createGeminiConnection]: [None] when it throws, otherwise the way
    the new socket authenticates. *)
Definition createGeminiConnection (useEphemeralToken : bool) (env : Env)
  : option Credential :=
  let apiKeyPath :=
    match GEMINI_API_KEY env with
    | Some k => if JsString.truthy k then Some (ApiKey k) else None
    | None => None
    end in
  if useEphemeralToken then
    match ephemeralToken env with
    | Some token => if JsString.truthy token then Some (Bearer token) else apiKeyPath
    | None => apiKeyPath
    end
  else apiKeyPath.

(** [setupGeminiConnection(clientWs, useEphemeralToken)] up to the
    registration of the handlers: [None] when [createGeminiConnection]
    throws (nothing has been touched then), otherwise the address of the
    new socket and the new world. *)
Definition setupGeminiConnection (clientWs : nat) (useEphemeralToken : bool)
    (env : Env) (now : Z) (w : World) : option (nat * World) :=
  match createGeminiConnection useEphemeralToken env with
  | None => None
  | Some cred =>
    let '(geminiWs, w1) := alloc w in
    let existingConnection := getConnection w1 clientWs in
    let '(log, w2) :=
      match existingConnection with
      | Some (_, e) => (conversationLog e, w1)
      | None => let '(l, w') := alloc w1 in (l, putArray l [] w')
      end in
    let '(a, w3) := alloc w2 in
    let connectionData :=
      {| gemini := geminiWs;
         reconnectTimeout := None;
         conversationLog := log;
         pingInterval := None;
         lastPong := now;
         lastPing := now;
         currentUserText := [];
         currentAssistantText := [];
         reconnectCount :=
           match existingConnection with
           | Some (_, e) => (reconnectCount e + 1)%nat
           | None => 0%nat
           end;
         audioBuffers := [] |} in
    let w4 := putObject a connectionData w3 in
    let w5 := set_clientConnections (<[clientWs := a]> (clientConnections w4)) w4 in
    let sock := mkSocket CONNECTING clientWs a log cred in
    Some (geminiWs, set_sockets (<[geminiWs := sock]> (sockets w5)) w5)
  end.

(** The [setInterval] callback of the open handler.  It works on the
    captured object [connection], not on a fresh map lookup. *)
Definition watchdogTick (geminiWs connection : nat) (now : Z) (w : World) : World :=
  if geminiOpen w geminiWs then
    match objects w !! connection with
    | None => w
    | Some d =>
      let w1 := putObject connection (set_lastPing now d) w in
      let w2 := callGemini geminiWs Ping w1 in
      let timeSinceLastPong := now - lastPong d in
      if PONG_TIMEOUT <? timeSinceLastPong then
        closeGemini geminiWs (Some (1000, JsString.lit "Ping timeout")) w2
      else w2
    end
  else w.

(** [geminiWs.on("open", ...)] *)
Definition onGeminiOpen (geminiWs : nat) (w : World) : World :=
  match sockets w !! geminiWs with
  | None => w
  | Some s =>
    let clientWs := sock_clientWs s in
    let conversationLog := arrayAt w (sock_conversationLog s) in
    let w1 := sendGemini geminiWs (Setup conversationLog) w in
    let w2 :=
      match getConnection w1 clientWs with
      | Some (a, connection) =>
        let '(h, w') := setTimer (Watchdog clientWs geminiWs a) w1 in
        putObject a (set_pingInterval (Some h) connection) w'
      | None => w1
      end in
    if clientOpen w2 clientWs then
      match objects w2 !! sock_connectionData s with
      | Some connectionData =>
        sendClient clientWs
          (ready (bool_decide (0 < length conversationLog)%nat)
                 (reconnectCount connectionData)) w2
      | None => w2
      end
    else w2
  end.

(** [geminiWs.on("pong", ...)] *)
Definition onGeminiPong (geminiWs : nat) (now : Z) (w : World) : World :=
  match sockets w !! geminiWs with
  | None => w
  | Some s =>
    match getConnection w (sock_clientWs s) with
    | Some (a, connection) => putObject a (set_lastPong now connection) w
    | None => w
    end
  end.

(** The body of [parts.forEach] in the upstream message handler. *)
Definition accumulatePart (acc : jsstring) (part : Part) : jsstring :=
  let acc1 :=
    match part_text part with
    | Some t => if JsString.truthy t then acc ++ t else acc
    | None => acc
    end in
  match inlineData part with
  | Some i =>
    if JsString.eqb (mimeType i) (JsString.lit "text/plain")
       && JsString.truthy (data i)
    then acc1 ++ base64ToUtf8 (data i)
    else acc1
  | None => acc1
  end.

(** [conversationLog.splice(0, length - 30)] under its guard. *)
Definition trimHistory (l : list Entry) : list Entry :=
  if bool_decide (HISTORY_CAP < length l)%nat
  then drop (length l - HISTORY_CAP) l
  else l.

(** [geminiWs.on("message", ...)]; [None] is a payload on which
    [JSON.parse] throws. *)
Definition onGeminiMessage (geminiWs : nat) (m : option GeminiMessage)
    (now : Z) (w : World) : World :=
  match sockets w !! geminiWs, m with
  | None, _ => w
  | Some _, None => w
  | Some s, Some message =>
    let clientWs := sock_clientWs s in
    match getConnection w clientWs with
    | None => w
    | Some (a, connection) =>
      let w1 :=
        match serverContent message with
        | None => w
        | Some sc =>
          let connection1 :=
            match modelTurn sc with
            | Some parts =>
              set_currentAssistantText
                (fold_left accumulatePart parts (currentAssistantText connection))
                connection
            | None => connection
            end in
          if turnComplete sc then
            let assistantText := JsString.trim (currentAssistantText connection1) in
            if JsString.truthy assistantText then
              let log := conversationLog connection1 in
              let pushed := arrayAt w log ++ [mkEntry assistant assistantText now] in
              putObject a (set_currentAssistantText [] connection1)
                (putArray log (trimHistory pushed) w)
            else putObject a connection1 w
          else putObject a connection1 w
        end in
      if clientOpen w1 clientWs
      then sendClient clientWs (gemini_response message) w1
      else w1
    end
  end.

(** [geminiWs.on("close", ...)] *)
Definition onGeminiClose (geminiWs : nat) (w : World) : World :=
  match sockets w !! geminiWs with
  | None => w
  | Some s =>
    let clientWs := sock_clientWs s in
    match getConnection w clientWs with
    | None => w
    | Some (a, connection) =>
      let '(connection1, w1) :=
        match pingInterval connection with
        | Some h => (set_pingInterval None connection,
                     putObject a (set_pingInterval None connection) (clearTimer h w))
        | None => (connection, w)
        end in
      if clientOpen w1 clientWs then
        let w2 := sendClient clientWs (reconnecting (reconnectCount connection1)) w1 in
        let '(h, w3) := setTimer (Reconnect clientWs) w2 in
        putObject a (set_reconnectTimeout (Some h) connection1) w3
      else w1
    end
  end.

(** [geminiWs.on("error", ...)] *)
Definition onGeminiError (geminiWs : nat) (message : jsstring) (w : World) : World :=
  match sockets w !! geminiWs with
  | None => w
  | Some s =>
    if clientOpen w (sock_clientWs s)
    then sendClient (sock_clientWs s) (error message) w
    else w
  end.

(** The async callback of the 3-second [setTimeout]. *)
Definition reconnectCallback (clientWs : nat) (env : Env) (now : Z) (w : World) : World :=
  match setupGeminiConnection clientWs true env now w with
  | Some (_, w') => w'
  | None => snd (setTimer (Fallback clientWs) w)
  end.

(** The callback of the 2-second [setTimeout]; a rejection of
    [setupGeminiConnection] is not handled and changes nothing. *)
Definition fallbackCallback (clientWs : nat) (env : Env) (now : Z) (w : World) : World :=
  match setupGeminiConnection clientWs false env now w with
  | Some (_, w') => w'
  | None => w
  end.

(** [wss.on("connection", ...)] up to the registration of the client
    handlers: first attempt with the token, one more with the key. *)
Definition onConnection (clientWs : nat) (env1 env2 : Env) (now : Z) (w : World) : World :=
  let w0 := set_clients (<[clientWs := OPEN]> (clients w)) w in
  match setupGeminiConnection clientWs true env1 now w0 with
  | Some (_, w') => w'
  | None =>
    match setupGeminiConnection clientWs false env2 now w0 with
    | Some (_, w') => w'
    | None => w0
    end
  end.

(** [clientWs.on("message", ...)]; [None] is a payload on which
    [JSON.parse] throws. *)
Definition onClientMessage (clientWs : nat) (m : option ClientMessage)
    (now : Z) (w : World) : World :=
  match m with
  | None => w
  | Some data =>
    match getConnection w clientWs with
    | None => w
    | Some (a, connection) =>
      let geminiWs := gemini connection in
      match data with
      | audio_chunk audio =>
        if geminiOpen w geminiWs then
          sendGemini geminiWs (RealtimeInput audio)
            (putObject a
               (set_audioBuffers (audioBuffers connection ++ [audio]) connection) w)
        else w
      | turn_complete =>
        if geminiOpen w geminiWs then
          let w1 := sendGemini geminiWs EndOfTurn w in
          let userText := JsString.trim (currentUserText connection) in
          if JsString.truthy userText then
            let log := conversationLog connection in
            let pushed := arrayAt w1 log ++ [mkEntry user userText now] in
            putObject a
              (set_audioBuffers [] (set_currentUserText [] connection))
              (putArray log pushed w1)
          else putObject a (set_audioBuffers [] connection) w1
        else w
      | interrupt =>
        if geminiOpen w geminiWs then sendGemini geminiWs InterruptFrame w else w
      | clear_history =>
        let '(fresh, w1) := alloc w in
        let w2 := putArray fresh [] w1 in
        let w3 :=
          putObject a
            (set_audioBuffers []
               (set_currentAssistantText []
                  (set_currentUserText []
                     (set_conversationLog fresh connection)))) w2 in
        if clientOpen w3 clientWs then sendClient clientWs history_cleared w3 else w3
      | user_transcript text =>
        if JsString.truthy text then
          putObject a
            (set_currentUserText
               (currentUserText connection ++ JsString.lit " " ++ text)
               connection) w
        else w
      | unrecognized => w
      end
    end
  end.

(** [clientWs.on("close", ...)] *)
Definition onClientClose (clientWs : nat) (w : World) : World :=
  match getConnection w clientWs with
  | None => w
  | Some (_, connection) =>
    let w1 :=
      match reconnectTimeout connection with
      | Some h => clearTimer h w
      | None => w
      end in
    let w2 :=
      match pingInterval connection with
      | Some h => clearTimer h w1
      | None => w1
      end in
    let w3 :=
      if geminiOpen w2 (gemini connection)
      then closeGemini (gemini connection) None w2
      else w2 in
    set_clientConnections (delete clientWs (clientConnections w3)) w3
  end.

(** *** The event loop *)

(** What the runtime can hand to the program.  The sockets and the
    timers belong to the environment: it decides which event comes
    next, and the program sees [readyState] follow the event ([OPEN]
    with the open event, [CLOSED] with the close event).  [step] runs
    the callback of any event it is given; which events the runtime
    does raise is said separately, by [legal] below. *)
Inductive Event :=
  | ClientConnects (clientWs : nat) (env1 env2 : Env) (now : Z)
  | ClientSends (clientWs : nat) (m : option ClientMessage) (now : Z)
  | ClientCloses (clientWs : nat)
  | GeminiOpens (geminiWs : nat)
  | GeminiPongs (geminiWs : nat) (now : Z)
  | GeminiSends (geminiWs : nat) (m : option GeminiMessage) (now : Z)
  | GeminiCloses (geminiWs : nat)
  | GeminiErrors (geminiWs : nat) (message : jsstring)
  | TimerFires (h : nat) (env : Env) (now : Z).

(** The callback of an armed timer. *)
Definition runTimer (t : Timer) (env : Env) (now : Z) (w : World) : World :=
  match t with
  | Watchdog _ geminiWs connection => watchdogTick geminiWs connection now w
  | Reconnect clientWs => reconnectCallback clientWs env now w
  | Fallback clientWs => fallbackCallback clientWs env now w
  end.

Definition step (e : Event) (w : World) : World :=
  match e with
  | ClientConnects c env1 env2 now => onConnection c env1 env2 now w
  | ClientSends c m now => onClientMessage c m now w
  | ClientCloses c =>
    onClientClose c (set_clients (<[c := CLOSED]> (clients w)) w)
  | GeminiOpens g => onGeminiOpen g (setReadyState g OPEN w)
  | GeminiPongs g now => onGeminiPong g now w
  | GeminiSends g m now => onGeminiMessage g m now w
  | GeminiCloses g => onGeminiClose g (setReadyState g CLOSED w)
  | GeminiErrors g msg => onGeminiError g msg w
  | TimerFires h env now =>
    match timers w !! h with
    | None => w
    | Some t =>
      let w1 := if isInterval t then w else clearTimer h w in
      runTimer t env now w1
    end
  end.

Definition run (es : list Event) (w : World) : World := fold_left (fun w e => step e w) es w.

(** *** Observations *)

(** The session of a downstream connection as the handlers see it. *)
Definition session (w : World) (clientWs : nat) : option ConnectionData :=
  snd <$> getConnection w clientWs.

(** The upstream socket that is current for a downstream connection. *)
Definition currentGemini (w : World) (clientWs : nat) : option nat :=
  gemini <$> session w clientWs.

(** The contents of a session's conversation log. *)
Definition sessionLog (w : World) (clientWs : nat) : option (list Entry) :=
  (fun d => arrayAt w (conversationLog d)) <$> session w clientWs.

End Relay.

(* ------------------------------------------------------------------ *)
(** ** Vocabulary of the properties *)

(** A session whose current upstream socket is open. *)
Definition Routed (w : World) (c a : nat) (d : ConnectionData) : Prop :=
  clientConnections w !! c = Some a /\
  objects w !! a = Some d /\
  geminiOpen w (gemini d) = true.

(** The upstream event shapes of the scenarios: a model-turn event
    whose parts are given, and an event marked turn-complete. *)
Definition textPart (x : jsstring) : Part := mkPart (Some x) None.

Definition modelTurnEvent (parts : list Part) : GeminiMessage :=
  mkGeminiMessage (Some (mkServerContent (Some parts) false)).

Definition turnCompleteEvent : GeminiMessage :=
  mkGeminiMessage (Some (mkServerContent None true)).

(** A socket whose handlers were registered for downstream connection
    [c], and the session now registered for [c]. *)
Definition Attached (w : World) (g c a : nat) (d : ConnectionData) : Prop :=
  (exists s, sockets w !! g = Some s /\ sock_clientWs s = c) /\
  clientConnections w !! c = Some a /\
  objects w !! a = Some d.


(** Two states of a session record that name the same upstream socket
    and carry the same reconnect counter. *)
Definition sameIdentity (d d' : ConnectionData) : Prop :=
  gemini d' = gemini d /\ reconnectCount d' = reconnectCount d.

(** Every registered session lives at an address that has been
    allocated, and its object exists. *)
Definition registryAllocated (w : World) : Prop :=
  forall c a, clientConnections w !! c = Some a ->
    (a < nextId w)%nat /\ is_Some (objects w !! a).

(** Every session object names a socket that has been allocated. *)
Definition socketsAllocated (w : World) : Prop :=
  forall a d, objects w !! a = Some d -> (gemini d < nextId w)%nat.

Definition wellFormed (w : World) : Prop :=
  registryAllocated w /\ socketsAllocated w.




(** A callback that leaves the registry as it is and keeps, for every
    session object, the socket it names and its reconnect counter. *)
Definition preserves (w w' : World) : Prop :=
  clientConnections w' = clientConnections w /\
  (nextId w <= nextId w')%nat /\
  forall a, option_Forall2 sameIdentity (objects w !! a) (objects w' !! a).



(* ------------------------------------------------------------------ *)
(** ** The life cycle of upstream sockets *)

(** Socket [g] was created for downstream connection [c]. *)
Definition socketOf (w : World) (c g : nat) : Prop :=
  exists s, sockets w !! g = Some s /\ sock_clientWs s = c.

(** ... and has not emitted its close event yet. *)
Definition live (w : World) (c g : nat) : Prop :=
  exists s, sockets w !! g = Some s /\ sock_clientWs s = c /\ readyState s <> CLOSED.

(** Timer [h] is an armed reconnect or fallback timer of [c]. *)
Definition retry (w : World) (c h : nat) : Prop :=
  timers w !! h = Some (Reconnect c) \/ timers w !! h = Some (Fallback c).

(** What the runtime guarantees about the events it raises: a connection
    event carries a new downstream socket; a socket opens once, out of
    the connecting state; and a socket raises nothing after its close
    event. *)
Definition legal (w : World) (e : Event) : Prop :=
  match e with
  | ClientConnects c _ _ _ => clients w !! c = None
  | GeminiOpens g => readyState <$> sockets w !! g = Some CONNECTING
  | GeminiPongs g _ | GeminiSends g _ _ | GeminiErrors g _ | GeminiCloses g =>
    exists s, sockets w !! g = Some s /\ readyState s <> CLOSED
  | ClientSends _ _ _ | ClientCloses _ | TimerFires _ _ _ => True
  end.

Fixpoint legalRun (decode : jsstring -> jsstring) (es : list Event) (w : World) : Prop :=
  match es with
  | [] => True
  | e :: es' => legal w e /\ legalRun decode es' (step decode e w)
  end.

(** A callback that creates no socket, revives none, and arms no
    reconnect or fallback timer. *)
Definition calm (w w' : World) : Prop :=
  (forall g s', sockets w' !! g = Some s' ->
     exists s, sockets w !! g = Some s /\ sock_clientWs s' = sock_clientWs s /\
       (readyState s = CLOSED -> readyState s' = CLOSED)) /\
  (forall c h, retry w' c h -> retry w c h) /\
  (forall c, clients w' !! c = None -> clients w !! c = None).

(** Every session of [w'] was there in [w], naming the same socket. *)
Definition sessionsKept (w w' : World) : Prop :=
  forall c d', session w' c = Some d' ->
    exists d, session w c = Some d /\ gemini d' = gemini d.

(** At most one live socket or one pending retry per downstream
    connection, a live socket of a registered session is its current
    socket, and a downstream connection that has not been accepted has
    neither sockets nor retries. *)
Definition cycleInv (w : World) : Prop :=
  (forall c g g', live w c g -> live w c g' -> g = g') /\
  (forall c g h, live w c g -> retry w c h -> False) /\
  (forall c h h', retry w c h -> retry w c h' -> h = h') /\
  (forall c g d, live w c g -> session w c = Some d -> gemini d = g) /\
  (forall c, clients w !! c = None ->
     (forall g, ~ socketOf w c g) /\ (forall h, ~ retry w c h)).

Definition lifecycleInv (w : World) : Prop := wellFormed w /\ cycleInv w.


(* ------------------------------------------------------------------ *)
(** ** Sample runs *)

(** The sample runs carry no inline payload, so the decoder is never
    called in them. *)
Definition plainDecoder : jsstring -> jsstring := fun s => s.

(** A working service-account token and no API key; nothing at all; an
    API key only. *)
Definition envToken : Env := mkEnv (Some (JsString.lit "ya29.token")) None.
Definition envNothing : Env := mkEnv None None.
Definition envApiKey : Env := mkEnv None (Some (JsString.lit "AIza.key")).

(** Downstream connection 0 is accepted at time 100: socket 0, log
    array 1, session object 2. *)
Definition connectingTrace : list Event :=
  [ClientConnects 0 envToken envNothing 100].

(** ... and its upstream socket opens: watchdog timer 3. *)
Definition connectedTrace : list Event :=
  connectingTrace ++ [GeminiOpens 0].

(** ... and closes again: reconnect timer 4. *)
Definition droppedTrace : list Event :=
  connectedTrace ++ [GeminiCloses 0].

(** ... and the reconnect timer fires with the token available: socket 5
    and session object 6 replace socket 0 and object 2. *)
Definition reconnectedTrace : list Event :=
  droppedTrace ++ [TimerFires 4 envToken 3100].

(** The dropped connection again, but the reconnect attempt throws
    (no token, no key: fallback timer 5) and the client leaves before
    the fallback timer is due. *)
Definition abandonedTrace : list Event :=
  droppedTrace ++ [TimerFires 4 envNothing 3100; ClientCloses 0].

Definition connectingWorld : World := run plainDecoder connectingTrace emptyWorld.
Definition connectedWorld : World := run plainDecoder connectedTrace emptyWorld.
Definition droppedWorld : World := run plainDecoder droppedTrace emptyWorld.
Definition reconnectedWorld : World := run plainDecoder reconnectedTrace emptyWorld.
Definition abandonedWorld : World := run plainDecoder abandonedTrace emptyWorld.

(** The session record and the socket of [connectedWorld]. *)
Definition connectedSession : ConnectionData :=
  mkConnectionData 0 None 1 (Some 3%nat) 100 100 [] [] 0 [].

Definition connectedSocket : Socket :=
  mkSocket OPEN 0 2 1 (Bearer (JsString.lit "ya29.token")).

(** One user turn: a transcript and the end of the turn. *)
Definition userTurn (c : nat) (x : jsstring) (now : Z) : list Event :=
  [ClientSends c (Some (user_transcript x)) now;
   ClientSends c (Some turn_complete) now].

Definition userTurns (c n : nat) : list Event :=
  List.concat (List.map (fun i => userTurn c (JsString.lit "hola") (Z.of_nat i))
                        (List.seq 1 n)).

(* ------------------------------------------------------------------ *)
(** ** Rendering the history into the system instruction *)

Module Text.

(** The line feed and the accented letters of the literals. *)
Definition nl : jsstring := [10%N].
Definition O_acute : jsstring := [211%N].
Definition u_acute : jsstring := [250%N].
Definition o_acute : jsstring := [243%N].
Definition e_acute : jsstring := [233%N].
Definition n_tilde : jsstring := [241%N].

(** The initial value of [history]. *)
Definition header : jsstring :=
  nl ++ nl ++ JsString.lit "=== HISTORIAL DE CONVERSACI" ++ O_acute
     ++ JsString.lit "N PREVIA ===" ++ nl.

(** What precedes the text of an entry, by role. *)
Definition tag (r : Role) : jsstring :=
  match r with
  | user => nl ++ JsString.lit "[Usuario dijo]: "
  | assistant => JsString.lit "[T" ++ u_acute ++ JsString.lit " respondiste]: "
  end.

(** The three [history +=] after the loop. *)
Definition footer : jsstring :=
  (nl ++ JsString.lit "=== FIN DEL HISTORIAL ===" ++ nl)
  ++ (JsString.lit "IMPORTANTE: Contin" ++ u_acute
        ++ JsString.lit "a la conversaci" ++ o_acute
        ++ JsString.lit "n manteniendo coherencia con este historial. ")
  ++ (JsString.lit "No repitas informaci" ++ o_acute
        ++ JsString.lit "n ya discutida a menos que sea relevante." ++ nl ++ nl).

(** The two literals that open [systemText]. *)
Definition persona : jsstring :=
  (JsString.lit "Eres un asistente amigable que responde en espa" ++ n_tilde
     ++ JsString.lit "ol de forma clara y concisa. ")
  ++ (JsString.lit "Mant" ++ e_acute
        ++ JsString.lit "n coherencia con el historial de conversaci" ++ o_acute
        ++ JsString.lit "n y evita repetir informaci" ++ o_acute
        ++ JsString.lit "n ya discutida.").

End Text.

(** The body of [conversationLog.forEach] in [buildConversationHistory]. *)
Definition appendEntry (history : jsstring) (entry : Entry) : jsstring :=
  history ++ Text.tag (role entry) ++ text entry ++ Text.nl.

(** [buildConversationHistory(conversationLog)] *)
Definition buildConversationHistory (conversationLog : list Entry) : jsstring :=
  if (length conversationLog =? 0)%nat then []
  else fold_left appendEntry conversationLog Text.header ++ Text.footer.

(** [systemText] of the open handler, for the log it closes over. *)
Definition systemText (conversationLog : list Entry) : jsstring :=
  Text.persona ++ buildConversationHistory conversationLog.


(** The rendering of one entry and of a run of entries. *)
Definition entryLine (e : Entry) : jsstring :=
  Text.tag (role e) ++ text e ++ Text.nl.

Definition entryLines (l : list Entry) : jsstring :=
  List.concat (List.map entryLine l).

(* ------------------------------------------------------------------ *)
(** ** Vocabulary of the further properties *)

(** An entry whose text is not empty and has no white space at either
    end. *)
Definition entryClean (e : Entry) : Prop :=
  text e <> [] /\ JsString.trim (text e) = text e.

Definition logsClean (w : World) : Prop :=
  forall addr l, arrays w !! addr = Some l -> Forall entryClean l.

(** Everything that was called on one upstream socket, oldest first. *)
Definition callsOn (g : nat) (l : list (nat * GeminiAction)) : list (nat * GeminiAction) :=
  List.filter (fun x => bool_decide (fst x = g)) l.

(** From [w] to [w']: socket [g] is not open afterwards and nothing has
    been called on it. *)
Definition untouched (g : nat) (w w' : World) : Prop :=
  geminiOpen w' g = false /\
  callsOn g (toGemini w') = callsOn g (toGemini w).

(** A part that carries audio only: no text, and inline data (if any)
    of a type other than text/plain. *)
Definition audioOnly (p : Part) : Prop :=
  part_text p = None /\
  match inlineData p with
  | Some i => mimeType i <> JsString.lit "text/plain"
  | None => True
  end.

(** The credentials [createGeminiConnection] can use: a token that
    [getEphemeralToken] returned, a key that is set and not empty. *)
Definition usableToken (env : Env) : option jsstring :=
  match ephemeralToken env with
  | Some t => if JsString.truthy t then Some t else None
  | None => None
  end.

Definition usableKey (env : Env) : option jsstring :=
  match GEMINI_API_KEY env with
  | Some k => if JsString.truthy k then Some k else None
  | None => None
  end.

(** The credential of the upstream socket of a new downstream connection:
    the environment of the first attempt, then that of the second. *)
Definition firstCredential (env1 env2 : Env) : option Credential :=
  match usableToken env1, usableKey env1, usableKey env2 with
  | Some t, _, _ => Some (Bearer t)
  | None, Some k, _ => Some (ApiKey k)
  | None, None, Some k => Some (ApiKey k)
  | None, None, None => None
  end.

(* ------------------------------------------------------------------ *)
(** ** Further sample runs *)

(** The connected session after one user turn, and after its upstream
    socket has then closed. *)
Definition talkedTrace : list Event :=
  connectedTrace ++ userTurn 0 (JsString.lit "hola") 205.

Definition talkedWorld : World := run plainDecoder talkedTrace emptyWorld.

Definition silencedWorld : World :=
  step plainDecoder (GeminiCloses 0) talkedWorld.

(** The connected session with an assistant fragment accumulated. *)
Definition answeringWorld : World :=
  step plainDecoder
    (GeminiSends 0 (Some (modelTurnEvent [textPart (JsString.lit "Hola")])) 301)
    connectedWorld.

(** A part that carries a chunk of audio. *)
Definition audioPart : Part :=
  mkPart None (Some (mkInlineData (JsString.lit "audio/pcm") (JsString.lit "AAAA"))).

(** A token and a key, both usable. *)
Definition envBoth : Env :=
  mkEnv (Some (JsString.lit "ya29.token")) (Some (JsString.lit "AIza.key")).
(* ------------------------------------------------------------------ *)
(** ** Basic facts *)

Lemma getConnection_Some w c a d :
  getConnection w c = Some (a, d) <->
  clientConnections w !! c = Some a /\ objects w !! a = Some d.
Proof.
  unfold getConnection. split.
  - destruct (clientConnections w !! c) as [a'|]; [|discriminate].
    destruct (objects w !! a') as [d'|] eqn:Ho; [|discriminate].
    intros [= <- <-]. split; [reflexivity | exact Ho].
  - intros [H1 H2]. rewrite H1, H2. reflexivity.
Qed.

Lemma session_Some w c d :
  session w c = Some d <-> exists a, getConnection w c = Some (a, d).
Proof.
  unfold session. split.
  - destruct (getConnection w c) as [[a d']|]; [|discriminate].
    intros [= <-]. exists a. reflexivity.
  - intros [a ->]. reflexivity.
Qed.

Module Trim.

Import JsString.

Lemma trimStart_blank_app (s x : jsstring) :
  blank s -> trimStart (s ++ x) = trimStart x.
Proof.
  induction 1 as [|c s Hc _ IH]; [reflexivity|].
  simpl. rewrite Hc. exact IH.
Qed.

Lemma trim_blank_app (s x : jsstring) :
  blank s -> trim (s ++ x) = trim x.
Proof. intros H. unfold trim. rewrite trimStart_blank_app by exact H. reflexivity. Qed.

Lemma trimStart_blank (s : jsstring) : blank s -> trimStart s = [].
Proof.
  intros H. rewrite <- (app_nil_r s). rewrite trimStart_blank_app by exact H.
  reflexivity.
Qed.

Lemma trim_blank (s : jsstring) : blank s -> trim s = [].
Proof. intros H. unfold trim. rewrite trimStart_blank by exact H. reflexivity. Qed.

End Trim.

(* ------------------------------------------------------------------ *)
(** ** The message router, downstream to upstream *)

Section Router.

Variable decode : jsstring -> jsstring.

(** C10.  With the current upstream socket not open, a [turn_complete]
    message changes nothing at all: the world after the handler is the
    world before it, so the user accumulator is neither flushed nor
    cleared, the pending audio stays, and no frame goes upstream. *)
Theorem turn_complete_when_upstream_not_open (w : World) (c : nat)
    (d : ConnectionData) (now : Z) :
  session w c = Some d ->
  geminiOpen w (gemini d) = false ->
  step decode (ClientSends c (Some turn_complete) now) w = w.
Proof.
  intros Hs Hclosed. apply session_Some in Hs as [a Ha].
  simpl. unfold onClientMessage. rewrite Ha, Hclosed. reflexivity.
Qed.

(** C9.  After a [clear_history] message the session's log, both
    utterance accumulators and the pending audio are empty, and the
    downstream client (whose socket is open, as it is when it delivers
    a message) has been sent [history_cleared]. *)
Theorem clear_history_resets_session (w : World) (c : nat)
    (d : ConnectionData) (now : Z) :
  session w c = Some d ->
  clientOpen w c = true ->
  let w' := step decode (ClientSends c (Some clear_history) now) w in
  exists d',
    session w' c = Some d' /\
    sessionLog w' c = Some [] /\
    currentUserText d' = [] /\
    currentAssistantText d' = [] /\
    audioBuffers d' = [] /\
    toClient w' = toClient w ++ [(c, history_cleared)].
Proof.
  intros Hs Hopen. apply session_Some in Hs as [a Ha].
  pose proof Ha as Hget. apply getConnection_Some in Ha as [Hc Ho].
  simpl. unfold onClientMessage. rewrite Hget. simpl.
  assert (Hopen' : forall x y,
    clientOpen (putObject a x (putArray (nextId w) y (set_nextId (S (nextId w)) w))) c = true)
    by (intros; exact Hopen).
  rewrite Hopen'.
  eexists. repeat split.
  - unfold session, getConnection. simpl. rewrite Hc, lookup_insert_eq. reflexivity.
  - unfold sessionLog, session, getConnection. simpl.
    rewrite Hc, lookup_insert_eq. simpl.
    unfold arrayAt. simpl. rewrite lookup_insert_eq. reflexivity.
  - reflexivity.
  - reflexivity.
  - reflexivity.
Qed.


Lemma Routed_getConnection w c a d :
  Routed w c a d -> getConnection w c = Some (a, d).
Proof. intros (Hc & Ho & _). apply getConnection_Some. split; assumption. Qed.



(** [user_transcript] with a non-empty text: the text is appended to
    the user accumulator after one space. *)
Lemma user_transcript_spec w c a d x now :
  Routed w c a d ->
  JsString.truthy x = true ->
  let w' := onClientMessage c (Some (user_transcript x)) now w in
  Routed w' c a
    (set_currentUserText (currentUserText d ++ JsString.lit " " ++ x) d) /\
  arrays w' = arrays w /\
  toGemini w' = toGemini w.
Proof.
  intros H Hx. pose proof (Routed_getConnection _ _ _ _ H) as Hg.
  destruct H as (Hc & Ho & Hopen).
  unfold onClientMessage. rewrite Hg, Hx. simpl.
  repeat split; try reflexivity; simpl.
  - exact Hc.
  - apply lookup_insert_eq.
  - exact Hopen.
Qed.

(** [turn_complete] on an open upstream socket with a user accumulator
    that does not trim to the empty string. *)
Lemma turn_complete_flush_spec w c a d now :
  Routed w c a d ->
  JsString.truthy (JsString.trim (currentUserText d)) = true ->
  let w' := onClientMessage c (Some turn_complete) now w in
  Routed w' c a (set_audioBuffers [] (set_currentUserText [] d)) /\
  arrays w' =
    <[conversationLog d :=
        arrayAt w (conversationLog d) ++
        [mkEntry user (JsString.trim (currentUserText d)) now]]> (arrays w) /\
  toGemini w' = toGemini w ++ [(gemini d, Send EndOfTurn)].
Proof.
  intros H Hx. pose proof (Routed_getConnection _ _ _ _ H) as Hg.
  destruct H as (Hc & Ho & Hopen).
  unfold onClientMessage. rewrite Hg, Hopen, Hx. simpl.
  repeat split; try reflexivity; simpl.
  - exact Hc.
  - apply lookup_insert_eq.
  - exact Hopen.
Qed.


(** *** Upstream to downstream *)



Lemma Attached_session w g c a d : Attached w g c a d -> session w c = Some d.
Proof.
  intros (_ & Hc & Ho). apply session_Some. exists a.
  apply getConnection_Some. split; assumption.
Qed.


(** A turn-complete event with an accumulator that does not trim to
    the empty string: the trimmed text becomes an [assistant] entry,
    the accumulator is emptied and the log is cut back to its last 30
    entries. *)
Lemma turnComplete_flush_spec w g c a d now :
  Attached w g c a d ->
  JsString.truthy (JsString.trim (currentAssistantText d)) = true ->
  let w' := onGeminiMessage decode g (Some turnCompleteEvent) now w in
  Attached w' g c a (set_currentAssistantText [] d) /\
  arrays w' =
    <[conversationLog d :=
        trimHistory (arrayAt w (conversationLog d) ++
          [mkEntry assistant (JsString.trim (currentAssistantText d)) now])]>
      (arrays w).
Proof.
  intros ((s & Hs & Hsc) & Hc & Ho) Hx.
  assert (Hg : getConnection w c = Some (a, d))
    by (apply getConnection_Some; split; assumption).
  unfold onGeminiMessage. rewrite Hs, Hsc, Hg.
  cbn [turnCompleteEvent serverContent modelTurn turnComplete].
  rewrite Hx.
  match goal with |- context [if ?b then _ else _] => destruct b end;
    (split; [split; [exists s; split; assumption | split; [exact Hc | apply lookup_insert_eq]]
            | reflexivity]).
Qed.




End Router.

(* ------------------------------------------------------------------ *)
(** ** The user append path *)

Section UserTurns.

Variable decode : jsstring -> jsstring.

Lemma run_app es1 es2 w :
  run decode (es1 ++ es2) w = run decode es2 (run decode es1 w).
Proof. unfold run. apply fold_left_app. Qed.

(** One user turn on an open upstream socket: one entry is pushed and
    nothing is removed. *)
Lemma userTurn_spec w c a d now :
  Routed w c a d ->
  JsString.blank (currentUserText d) ->
  let w' := run decode (userTurn c (JsString.lit "hola") now) w in
  exists d',
    Routed w' c a d' /\
    currentUserText d' = [] /\
    conversationLog d' = conversationLog d /\
    arrayAt w' (conversationLog d) =
      arrayAt w (conversationLog d) ++ [mkEntry user (JsString.lit "hola") now].
Proof.
  intros R0 Hblank. cbn [run userTurn fold_left step].
  destruct (user_transcript_spec _ _ _ _ (JsString.lit "hola") now R0 eq_refl)
    as (R1 & A1 & _).
  assert (Htrim : JsString.trim
            (currentUserText d ++ JsString.lit " " ++ JsString.lit "hola")
          = JsString.lit "hola").
  { rewrite Trim.trim_blank_app by exact Hblank. reflexivity. }
  destruct (turn_complete_flush_spec _ _ _ _ now R1) as (R2 & A2 & _).
  { cbn [currentUserText set_currentUserText]. rewrite Htrim. reflexivity. }
  eexists. split; [exact R2|]. split; [reflexivity|]. split; [reflexivity|].
  unfold arrayAt at 1. rewrite A2.
  cbn [conversationLog currentUserText set_currentUserText].
  rewrite lookup_insert_eq. cbn [default]. rewrite Htrim.
  unfold arrayAt. rewrite A1. reflexivity.
Qed.

(** Any number of user turns in a row: the log grows by one entry per
    turn, whatever its length. *)
Lemma userTurns_log_grows n : forall start w c a d,
  Routed w c a d ->
  JsString.blank (currentUserText d) ->
  let w' := run decode
              (List.concat
                 (List.map (fun i => userTurn c (JsString.lit "hola") (Z.of_nat i))
                           (List.seq start n))) w in
  exists d',
    Routed w' c a d' /\
    conversationLog d' = conversationLog d /\
    length (arrayAt w' (conversationLog d)) =
      (length (arrayAt w (conversationLog d)) + n)%nat.
Proof.
  induction n as [|n IH]; intros start w c a d R0 Hblank.
  - exists d. cbn. repeat split; try apply R0. lia.
  - cbn [List.seq List.map List.concat]. cbv zeta. rewrite run_app.
    destruct (userTurn_spec w c a d (Z.of_nat start) R0 Hblank)
      as (d1 & R1 & Hcur & Hlog & Harr).
    destruct (IH (S start) _ c a d1 R1) as (d2 & R2 & Hlog2 & Hlen).
    { rewrite Hcur. constructor. }
    exists d2. split; [exact R2|]. split; [congruence|].
    rewrite Hlog in Hlen. rewrite Hlen, Harr, length_app. cbn. lia.
Qed.

End UserTurns.

(* ------------------------------------------------------------------ *)
(** ** Establishing an upstream connection *)

(** What a returning [setupGeminiConnection] leaves behind. *)
Lemma setupGeminiConnection_spec c b env now w g w' :
  setupGeminiConnection c b env now w = Some (g, w') ->
  exists cred a d',
    createGeminiConnection b env = Some cred /\
    g = nextId w /\
    (nextId w < a < nextId w')%nat /\
    clientConnections w' = <[c := a]> (clientConnections w) /\
    objects w' = <[a := d']> (objects w) /\
    gemini d' = g /\
    reconnectCount d' =
      match session w c with
      | Some e => S (reconnectCount e)
      | None => 0%nat
      end /\
    sockets w' = <[g := mkSocket CONNECTING c a (conversationLog d') cred]> (sockets w) /\
    timers w' = timers w /\
    clients w' = clients w /\
    toClient w' = toClient w /\
    toGemini w' = toGemini w /\
    match session w c with
    | Some e => conversationLog d' = conversationLog e /\ arrays w' = arrays w
    | None => conversationLog d' = S (nextId w) /\
              arrays w' = <[S (nextId w) := []]> (arrays w)
    end.
Proof.
  unfold setupGeminiConnection.
  destruct (createGeminiConnection b env) as [cred|]; [|discriminate].
  unfold alloc. cbn [set_nextId nextId].
  change (getConnection (set_nextId (S (nextId w)) w) c) with (getConnection w c).
  unfold session.
  destruct (getConnection w c) as [[a0 e]|]; cbn; intros [= <- <-]; cbn.
  - eexists cred, _, _. repeat split; try reflexivity; try lia.
    cbn. rewrite Nat.add_1_r. reflexivity.
  - eexists cred, _, _. repeat split; try reflexivity; lia.
Qed.

Lemma setupGeminiConnection_throws c b env now w :
  setupGeminiConnection c b env now w = None <-> createGeminiConnection b env = None.
Proof.
  unfold setupGeminiConnection.
  destruct (createGeminiConnection b env) as [cred|]; [|tauto].
  split; [|discriminate].
  unfold alloc. destruct (getConnection _ c) as [[a0 e]|]; cbn; discriminate.
Qed.

(* ------------------------------------------------------------------ *)
(** ** What the callbacks keep *)

Lemma sameIdentity_refl d : sameIdentity d d.
Proof. split; reflexivity. Qed.

Lemma sameIdentity_trans d1 d2 d3 :
  sameIdentity d1 d2 -> sameIdentity d2 d3 -> sameIdentity d1 d3.
Proof. intros [A B] [C D]. split; congruence. Qed.

Lemma preserves_refl w : preserves w w.
Proof.
  repeat split; [lia|]. intros a.
  destruct (objects w !! a); constructor. apply sameIdentity_refl.
Qed.

Lemma preserves_trans w1 w2 w3 :
  preserves w1 w2 -> preserves w2 w3 -> preserves w1 w3.
Proof.
  intros (A1 & B1 & C1) (A2 & B2 & C2). repeat split; [congruence|lia|].
  intros a. specialize (C1 a). specialize (C2 a).
  destruct C1 as [x y Hxy|]; inversion C2; subst; constructor.
  eapply sameIdentity_trans; eassumption.
Qed.

(** Fields other than the registry, the allocator and the objects do not
    matter. *)
Lemma preserves_frame w w1 w2 :
  preserves w w1 ->
  clientConnections w2 = clientConnections w1 ->
  (nextId w1 <= nextId w2)%nat ->
  objects w2 = objects w1 ->
  preserves w w2.
Proof.
  intros (A & B & C) E1 E2 E3. repeat split; [congruence|lia|].
  intros a. rewrite E3. apply C.
Qed.

(** Storing an updated copy of an existing session object. *)
Lemma preserves_putObject w w1 a d d1 :
  preserves w w1 ->
  objects w !! a = Some d ->
  sameIdentity d d1 ->
  preserves w (putObject a d1 w1).
Proof.
  intros (A & B & C) Ho Hd. repeat split; [exact A|exact B|].
  intros a'. cbn. rewrite lookup_insert. case_decide as Ha.
  - subst a'. rewrite Ho. constructor. exact Hd.
  - apply C.
Qed.

Ltac frame_step :=
  first
    [ apply preserves_refl
    | eapply preserves_putObject;
        [ | eassumption | solve [split; reflexivity] ]
    | match goal with
      | |- preserves _ (sendClient _ _ ?w1) =>
          apply (preserves_frame _ w1); [ | reflexivity | cbn; lia | reflexivity ]
      | |- preserves _ (callGemini _ _ ?w1) =>
          apply (preserves_frame _ w1); [ | reflexivity | cbn; lia | reflexivity ]
      | |- preserves _ (sendGemini _ _ ?w1) =>
          apply (preserves_frame _ w1); [ | reflexivity | cbn; lia | reflexivity ]
      | |- preserves _ (closeGemini _ _ ?w1) =>
          apply (preserves_frame _ w1); [ | reflexivity | cbn; lia | reflexivity ]
      | |- preserves _ (putArray _ _ ?w1) =>
          apply (preserves_frame _ w1); [ | reflexivity | cbn; lia | reflexivity ]
      | |- preserves _ (clearTimer _ ?w1) =>
          apply (preserves_frame _ w1); [ | reflexivity | cbn; lia | reflexivity ]
      | |- preserves _ (setReadyState _ _ ?w1) =>
          apply (preserves_frame _ w1); [ | reflexivity | cbn; lia | reflexivity ]
      | |- preserves _ (set_timers _ ?w1) =>
          apply (preserves_frame _ w1); [ | reflexivity | cbn; lia | reflexivity ]
      | |- preserves _ (set_clients _ ?w1) =>
          apply (preserves_frame _ w1); [ | reflexivity | cbn; lia | reflexivity ]
      | |- preserves _ (set_nextId _ ?w1) =>
          apply (preserves_frame _ w1); [ | reflexivity | cbn; lia | reflexivity ]
      end ].

Ltac frame := repeat frame_step.

Lemma getConnection_object w c a d :
  getConnection w c = Some (a, d) -> objects w !! a = Some d.
Proof. intros H. apply getConnection_Some in H. tauto. Qed.

Ltac use_connection :=
  repeat match goal with
  | H : getConnection _ _ = Some (_, _) |- _ =>
      apply getConnection_object in H
  end.

Lemma onGeminiClose_preserves g w : preserves w (onGeminiClose g w).
Proof.
  unfold onGeminiClose, setTimer, alloc.
  repeat case_match; simplify_eq; use_connection; cbn; frame.
Qed.

Section Keeps.

Variable decode : jsstring -> jsstring.

Lemma onGeminiOpen_preserves g w : preserves w (onGeminiOpen g w).
Proof.
  unfold onGeminiOpen, setTimer, alloc.
  repeat case_match; simplify_eq; use_connection; cbn; frame.
Qed.

Lemma onGeminiPong_preserves g now w : preserves w (onGeminiPong g now w).
Proof.
  unfold onGeminiPong.
  repeat case_match; simplify_eq; use_connection; cbn; frame.
Qed.

Lemma onGeminiMessage_preserves g m now w :
  preserves w (onGeminiMessage decode g m now w).
Proof.
  unfold onGeminiMessage.
  repeat case_match; simplify_eq; use_connection; cbn; frame.
Qed.

Lemma onGeminiError_preserves g msg w : preserves w (onGeminiError g msg w).
Proof.
  unfold onGeminiError.
  repeat case_match; simplify_eq; cbn; frame.
Qed.

Lemma onClientMessage_preserves c m now w :
  preserves w (onClientMessage c m now w).
Proof.
  unfold onClientMessage, alloc.
  repeat case_match; simplify_eq; use_connection; cbn; frame.
Qed.

Lemma watchdogTick_preserves g a now w : preserves w (watchdogTick g a now w).
Proof.
  unfold watchdogTick.
  repeat case_match; simplify_eq; cbn; frame.
Qed.

(** The downstream close handler removes the registry entry and
    otherwise keeps what [preserves] keeps. *)
Lemma onClientClose_spec c w :
  onClientClose c w = w \/
  exists w1, preserves w w1 /\
    onClientClose c w = set_clientConnections (delete c (clientConnections w1)) w1.
Proof.
  unfold onClientClose.
  destruct (getConnection w c) as [[a d]|]; [right|left; reflexivity].
  eexists. split; [|reflexivity].
  repeat case_match; frame.
Qed.

Lemma preserves_session w w' c :
  preserves w w' -> option_Forall2 sameIdentity (session w c) (session w' c).
Proof.
  intros (A & _ & C). unfold session, getConnection. rewrite A.
  destruct (clientConnections w !! c) as [a|]; [|constructor].
  destruct (C a) as [x y Hxy|]; constructor. exact Hxy.
Qed.

Lemma preserves_wellFormed w w' :
  preserves w w' -> wellFormed w -> wellFormed w'.
Proof.
  intros (A & B & C) [Hreg Hsock]. split.
  - intros c a Hc. rewrite A in Hc.
    destruct (Hreg c a Hc) as [Hlt [d Hd]]. split; [lia|].
    specialize (C a). rewrite Hd in C. inversion C. eauto.
  - intros a d' Hd'. specialize (C a). rewrite Hd' in C.
    inversion C as [d ? [Hg _] Hd|]; subst.
    symmetry in Hd. specialize (Hsock a d Hd). lia.
Qed.

Lemma session_frame w w' c :
  clientConnections w' = clientConnections w ->
  objects w' = objects w ->
  session w' c = session w c.
Proof. intros A B. unfold session, getConnection. rewrite A, B. reflexivity. Qed.

Lemma session_delete w c0 c :
  session (set_clientConnections (delete c0 (clientConnections w)) w) c =
  if decide (c0 = c) then None else session w c.
Proof.
  unfold session, getConnection. cbn. rewrite lookup_delete.
  case_decide; reflexivity.
Qed.

(** A returning [setupGeminiConnection] for [c0]: the session of [c0]
    names the new socket and counts one more than the session it
    replaces (zero when there was none); no other session is touched. *)
Lemma setupGeminiConnection_session c0 b env now w g w' c :
  wellFormed w ->
  setupGeminiConnection c0 b env now w = Some (g, w') ->
  (c = c0 ->
   exists d', session w' c = Some d' /\ gemini d' = nextId w /\
     reconnectCount d' =
       match session w c with
       | Some e => S (reconnectCount e)
       | None => 0%nat
       end) /\
  (c <> c0 -> session w' c = session w c).
Proof.
  intros [Hwf _] Hs.
  destruct (setupGeminiConnection_spec _ _ _ _ _ _ _ Hs)
    as (cred & a & d' & _ & Hg & Ha & Hreg & Hobj & Hgem & Hcount & _).
  split.
  - intros ->. exists d'. split; [|split; [congruence|exact Hcount]].
    unfold session, getConnection. rewrite Hreg, lookup_insert_eq, Hobj, lookup_insert_eq.
    reflexivity.
  - intros Hne. unfold session, getConnection.
    rewrite Hreg, lookup_insert_ne by congruence.
    destruct (clientConnections w !! c) as [a2|] eqn:Hc; [|reflexivity].
    destruct (Hwf c a2 Hc) as [Hlt _].
    rewrite Hobj, lookup_insert_ne by lia. reflexivity.
Qed.

Lemma setupGeminiConnection_wellFormed c0 b env now w g w' :
  wellFormed w ->
  setupGeminiConnection c0 b env now w = Some (g, w') ->
  wellFormed w'.
Proof.
  intros [Hwf Hsock] Hs.
  destruct (setupGeminiConnection_spec _ _ _ _ _ _ _ Hs)
    as (cred & a & d' & _ & Hg & Ha & Hreg & Hobj & Hgem & _).
  split.
  - intros c a2. rewrite Hreg, Hobj, lookup_insert. case_decide as Hc.
    + intros [= <-]. split; [lia|]. rewrite lookup_insert_eq. eauto.
    + intros Hc2. destruct (Hwf c a2 Hc2) as [Hlt Hsome]. split; [lia|].
      rewrite lookup_insert_ne by lia. exact Hsome.
  - intros a2 d2. rewrite Hobj, lookup_insert. case_decide as Hc.
    + intros [= <-]. lia.
    + intros Hd2. specialize (Hsock a2 d2 Hd2). lia.
Qed.



Lemma wellFormed_empty : wellFormed emptyWorld.
Proof.
  split.
  - intros c a H. cbn in H. rewrite lookup_empty in H. discriminate.
  - intros a d H. cbn in H. rewrite lookup_empty in H. discriminate.
Qed.

Lemma wellFormed_delete c w :
  wellFormed w -> wellFormed (set_clientConnections (delete c (clientConnections w)) w).
Proof.
  intros [Hreg Hsock]. split; [|exact Hsock].
  intros x a. cbn. rewrite lookup_delete. case_decide; [discriminate|]. apply Hreg.
Qed.

Lemma wellFormed_step e w : wellFormed w -> wellFormed (step decode e w).
Proof.
  intros Hwf.
  assert (Hkeep : forall w', preserves w w' -> wellFormed w')
    by (intros w' Hp; exact (preserves_wellFormed _ _ Hp Hwf)).
  assert (Hsetup : forall c b env now w0, preserves w w0 ->
            match setupGeminiConnection c b env now w0 with
            | Some (_, w') => wellFormed w'
            | None => True
            end).
  { intros c b env now w0 Hp.
    destruct (setupGeminiConnection c b env now w0) as [[g w']|] eqn:Hs; [|exact I].
    eapply setupGeminiConnection_wellFormed; [|exact Hs]. apply Hkeep, Hp. }
  destruct e as [c0 env1 env2 now|c0 m now|c0|g|g now|g m now|g|g msg|h env now];
    cbn [step].
  - unfold onConnection.
    set (w0 := set_clients (<[c0:=OPEN]> (clients w)) w).
    assert (Hp : preserves w w0) by (unfold w0; frame).
    pose proof (Hsetup c0 true env1 now w0 Hp) as H1.
    pose proof (Hsetup c0 false env2 now w0 Hp) as H2.
    destruct (setupGeminiConnection c0 true env1 now w0) as [[g1 w1]|]; [exact H1|].
    destruct (setupGeminiConnection c0 false env2 now w0) as [[g2 w2]|]; [exact H2|].
    apply Hkeep, Hp.
  - apply Hkeep, onClientMessage_preserves.
  - set (w0 := set_clients (<[c0:=CLOSED]> (clients w)) w).
    assert (Hp0 : preserves w w0) by (unfold w0; frame).
    destruct (onClientClose_spec c0 w0) as [->|(w1 & Hp & ->)].
    + apply Hkeep, Hp0.
    + apply wellFormed_delete, Hkeep. eapply preserves_trans; [exact Hp0|exact Hp].
  - apply Hkeep. eapply preserves_trans; [|apply onGeminiOpen_preserves]. frame.
  - apply Hkeep, onGeminiPong_preserves.
  - apply Hkeep, onGeminiMessage_preserves.
  - apply Hkeep. eapply preserves_trans; [|apply onGeminiClose_preserves]. frame.
  - apply Hkeep, onGeminiError_preserves.
  - destruct (timers w !! h) as [[c0 g a|c0|c0]|]; cbn [isInterval runTimer].
    + apply Hkeep, watchdogTick_preserves.
    + unfold reconnectCallback.
      assert (Hp : preserves w (clearTimer h w)) by frame.
      pose proof (Hsetup c0 true env now _ Hp) as H1.
      destruct (setupGeminiConnection c0 true env now (clearTimer h w)) as [[g1 w1]|];
        [exact H1|].
      apply Hkeep. unfold setTimer, alloc. cbn. frame.
    + unfold fallbackCallback.
      assert (Hp : preserves w (clearTimer h w)) by frame.
      pose proof (Hsetup c0 false env now _ Hp) as H1.
      destruct (setupGeminiConnection c0 false env now (clearTimer h w)) as [[g1 w1]|];
        [exact H1|].
      apply Hkeep, Hp.
    + exact Hwf.
Qed.


End Keeps.

(* ------------------------------------------------------------------ *)
(** ** Sockets and retries under the runtime's life cycle *)

Lemma calm_refl w : calm w w.
Proof.
  split; [|split].
  - intros g s' H. exists s'. auto.
  - auto.
  - auto.
Qed.

Lemma calm_trans w1 w2 w3 : calm w1 w2 -> calm w2 w3 -> calm w1 w3.
Proof.
  intros (A1 & B1 & C1) (A2 & B2 & C2). split; [|split].
  - intros g s3 H3. destruct (A2 g s3 H3) as (s2 & H2 & E2 & K2).
    destruct (A1 g s2 H2) as (s1 & H1 & E1 & K1).
    exists s1. split; [exact H1|]. split; [congruence|auto].
  - auto.
  - auto.
Qed.

Lemma calm_frame w w1 w2 :
  calm w w1 ->
  sockets w2 = sockets w1 ->
  timers w2 = timers w1 ->
  clients w2 = clients w1 ->
  calm w w2.
Proof.
  intros (A & B & C) E1 E2 E3. split; [|split].
  - intros g s'. rewrite E1. apply A.
  - intros c h. unfold retry. rewrite E2. apply B.
  - intros c. rewrite E3. apply C.
Qed.

Lemma calm_closeGemini w w1 g r : calm w w1 -> calm w (closeGemini g r w1).
Proof.
  intros H. eapply calm_trans; [exact H|]. split; [|split]; [|auto|auto].
  intros g' s'. unfold closeGemini. cbn. rewrite lookup_alter.
  case_decide as Hg.
  - subst g'. destruct (sockets w1 !! g) as [s|]; cbn; [|discriminate].
    intros [= <-]. exists s. split; [reflexivity|].
    destruct (readyState s) eqn:Hs;
      (split; [reflexivity | intros Hc; first [discriminate Hc | exact Hs]]).
  - intros Hs. exists s'. auto.
Qed.

Lemma calm_clearTimer w w1 h : calm w w1 -> calm w (clearTimer h w1).
Proof.
  intros H. eapply calm_trans; [exact H|]. split; [|split]; [| |auto].
  - intros g s' Hs. exists s'. auto.
  - intros c h'. unfold retry, clearTimer. cbn. rewrite !lookup_delete.
    case_decide; [intros [?|?]; discriminate | auto].
Qed.

Lemma calm_armWatchdog w w1 w2 T h c g a :
  calm w w1 ->
  sockets w2 = sockets w1 ->
  T = timers w1 ->
  clients w2 = clients w1 ->
  calm w (set_timers (<[h := Watchdog c g a]> T) w2).
Proof.
  intros H E1 E2 E3. eapply calm_trans; [exact H|]. split; [|split].
  - cbn. rewrite E1. intros g' s' Hs. exists s'. auto.
  - intros c' h'. unfold retry. cbn. rewrite E2, !lookup_insert.
    case_decide; [intros [?|?]; discriminate | auto].
  - cbn. rewrite E3. auto.
Qed.

Lemma calm_set_clients w w1 c st :
  calm w w1 -> calm w (set_clients (<[c := st]> (clients w1)) w1).
Proof.
  intros H. eapply calm_trans; [exact H|]. split; [|split].
  - intros g s' Hs. exists s'. auto.
  - auto.
  - intros c'. cbn. rewrite lookup_insert. case_decide; [discriminate|auto].
Qed.

Lemma calm_setReadyState w w1 g st :
  calm w w1 ->
  (forall s, sockets w1 !! g = Some s -> readyState s <> CLOSED) \/ st = CLOSED ->
  calm w (setReadyState g st w1).
Proof.
  intros H Hst. eapply calm_trans; [exact H|]. split; [|split]; [|auto|auto].
  intros g' s'. unfold setReadyState. cbn. rewrite lookup_alter.
  case_decide as Hg.
  - subst g'. destruct (sockets w1 !! g) as [s|] eqn:Hs; cbn; [|discriminate].
    intros [= <-]. exists s. split; [reflexivity|]. split; [reflexivity|].
    cbn. destruct Hst as [Hst| ->]; [|reflexivity].
    intros Hc. destruct (Hst s eq_refl Hc).
  - intros Hs. exists s'. auto.
Qed.

Ltac calm_step :=
  first
    [ assumption
    | apply calm_refl
    | match goal with
      | |- calm _ (closeGemini _ _ ?w1) => apply calm_closeGemini
      | |- calm _ (clearTimer _ ?w1) => apply calm_clearTimer
      | |- calm _ (set_timers (<[_ := Watchdog _ _ _]> _) (set_nextId _ ?w1)) =>
          apply (calm_armWatchdog _ w1); [ | reflexivity | reflexivity | reflexivity ]
      | |- calm _ (sendGemini _ _ ?w1) =>
          apply (calm_frame _ w1); [ | reflexivity | reflexivity | reflexivity ]
      | |- calm _ (callGemini _ _ ?w1) =>
          apply (calm_frame _ w1); [ | reflexivity | reflexivity | reflexivity ]
      | |- calm _ (sendClient _ _ ?w1) =>
          apply (calm_frame _ w1); [ | reflexivity | reflexivity | reflexivity ]
      | |- calm _ (putObject _ _ ?w1) =>
          apply (calm_frame _ w1); [ | reflexivity | reflexivity | reflexivity ]
      | |- calm _ (putArray _ _ ?w1) =>
          apply (calm_frame _ w1); [ | reflexivity | reflexivity | reflexivity ]
      | |- calm _ (set_nextId _ ?w1) =>
          apply (calm_frame _ w1); [ | reflexivity | reflexivity | reflexivity ]
      | |- calm _ (set_clientConnections _ ?w1) =>
          apply (calm_frame _ w1); [ | reflexivity | reflexivity | reflexivity ]
      end ].

Ltac calm_tac := repeat calm_step.

Section Calm.

Variable decode : jsstring -> jsstring.

Lemma calm_onGeminiOpen w w0 g : calm w w0 -> calm w (onGeminiOpen g w0).
Proof.
  intros Hq. unfold onGeminiOpen, setTimer, alloc.
  repeat case_match; simplify_eq; cbn; calm_tac.
Qed.

Lemma calm_onClientClose w w0 c : calm w w0 -> calm w (onClientClose c w0).
Proof.
  intros Hq. unfold onClientClose.
  repeat case_match; simplify_eq; calm_tac.
Qed.

Lemma calm_onClientMessage w w0 c m now :
  calm w w0 -> calm w (onClientMessage c m now w0).
Proof.
  intros Hq. unfold onClientMessage, alloc.
  repeat case_match; simplify_eq; cbn; calm_tac.
Qed.

Lemma calm_onGeminiPong w w0 g now : calm w w0 -> calm w (onGeminiPong g now w0).
Proof.
  intros Hq. unfold onGeminiPong.
  repeat case_match; simplify_eq; calm_tac.
Qed.

Lemma calm_onGeminiMessage w w0 g m now :
  calm w w0 -> calm w (onGeminiMessage decode g m now w0).
Proof.
  intros Hq. unfold onGeminiMessage.
  repeat case_match; simplify_eq; calm_tac.
Qed.

Lemma calm_onGeminiError w w0 g msg : calm w w0 -> calm w (onGeminiError g msg w0).
Proof.
  intros Hq. unfold onGeminiError.
  repeat case_match; simplify_eq; calm_tac.
Qed.

Lemma calm_watchdogTick w w0 g a now : calm w w0 -> calm w (watchdogTick g a now w0).
Proof.
  intros Hq. unfold watchdogTick.
  repeat case_match; simplify_eq; calm_tac.
Qed.

End Calm.

Section Cycle.

Variable decode : jsstring -> jsstring.

Lemma calm_live w w' c g : calm w w' -> live w' c g -> live w c g.
Proof.
  intros (A & _ & _) (s' & Hs' & Hc & Hst).
  destruct (A g s' Hs') as (s & Hs & E & K).
  exists s. split; [exact Hs|]. split; [congruence|]. intros Hcl. apply Hst, K, Hcl.
Qed.

Lemma calm_socketOf w w' c g : calm w w' -> socketOf w' c g -> socketOf w c g.
Proof.
  intros (A & _ & _) (s' & Hs' & Hc).
  destruct (A g s' Hs') as (s & Hs & E & _).
  exists s. split; [exact Hs | congruence].
Qed.

Lemma live_socketOf w c g : live w c g -> socketOf w c g.
Proof. intros (s & Hs & Hc & _). exists s. auto. Qed.

Lemma preserves_sessionsKept w w' : preserves w w' -> sessionsKept w w'.
Proof.
  intros Hp c d' Hd'. pose proof (preserves_session w w' c Hp) as H.
  rewrite Hd' in H. inversion H as [d ? [Hg _]|]; subst. exists d. auto.
Qed.

Lemma sessionsKept_refl w : sessionsKept w w.
Proof. intros c d' H. exists d'. auto. Qed.

Lemma sessionsKept_trans w1 w2 w3 :
  sessionsKept w1 w2 -> sessionsKept w2 w3 -> sessionsKept w1 w3.
Proof.
  intros A B c d3 H3. destruct (B c d3 H3) as (d2 & H2 & E2).
  destruct (A c d2 H2) as (d1 & H1 & E1). exists d1. split; [exact H1 | congruence].
Qed.

(** A calm callback that keeps the sessions keeps the invariant. *)
Lemma cycleInv_calm w w' :
  cycleInv w -> calm w w' -> sessionsKept w w' -> cycleInv w'.
Proof.
  intros (I1 & I2 & I3 & I4 & I5) Hc Hk.
  pose proof Hc as (_ & Hr & Hcl).
  split; [|split; [|split; [|split]]].
  - intros c g g' H1 H2. eapply I1; eapply calm_live; eassumption.
  - intros c g h H1 H2. eapply I2; [eapply calm_live; eassumption | apply Hr, H2].
  - intros c h h' H1 H2. eapply I3; apply Hr; eassumption.
  - intros c g d' H1 H2. destruct (Hk c d' H2) as (d & Hd & E).
    rewrite E. eapply I4; [eapply calm_live; eassumption | exact Hd].
  - intros c H. split.
    + intros g H1. apply (proj1 (I5 c (Hcl c H)) g). eapply calm_socketOf; eassumption.
    + intros h H1. apply (proj2 (I5 c (Hcl c H)) h). apply Hr, H1.
Qed.

(** One new socket for a downstream connection that has neither a live
    socket nor a pending retry. *)
Lemma cycleInv_spawn_socket w w' c0 n s :
  cycleInv w ->
  (forall g, ~ live w c0 g) ->
  (forall h, ~ retry w c0 h) ->
  clients w !! c0 <> None ->
  sockets w' = <[n := s]> (sockets w) ->
  sock_clientWs s = c0 ->
  timers w' = timers w ->
  clients w' = clients w ->
  (forall d', session w' c0 = Some d' -> gemini d' = n) ->
  (forall c, c <> c0 -> session w' c = session w c) ->
  cycleInv w'.
Proof.
  intros (I1 & I2 & I3 & I4 & I5) Hnl Hnr Hcl Es Ec Et Ecl S1 S2.
  assert (Hlive : forall c g, live w' c g -> (g = n /\ c = c0) \/ (g <> n /\ live w c g)).
  { intros c g (s' & Hs' & Hc & Hst). rewrite Es, lookup_insert in Hs'.
    case_decide as Hg.
    - left. injection Hs' as <-. split; congruence.
    - right. split; [congruence|]. exists s'. auto. }
  assert (Hsock : forall c g, socketOf w' c g -> c = c0 \/ socketOf w c g).
  { intros c g (s' & Hs' & Hc). rewrite Es, lookup_insert in Hs'.
    case_decide as Hg.
    - left. injection Hs' as <-. congruence.
    - right. exists s'. auto. }
  assert (Hretry : forall c h, retry w' c h <-> retry w c h)
    by (intros; unfold retry; rewrite Et; reflexivity).
  split; [|split; [|split; [|split]]].
  - intros c g g' H1 H2.
    destruct (Hlive c g H1) as [[E1 E2]|[N1 L1]];
      destruct (Hlive c g' H2) as [[E3 E4]|[N2 L2]];
      subst; try reflexivity; try (exfalso; eapply Hnl; eassumption).
    eapply I1; eassumption.
  - intros c g h H1 H2. apply Hretry in H2.
    destruct (Hlive c g H1) as [[E1 E2]|[N1 L1]].
    + subst. eapply Hnr; eassumption.
    + eapply I2; eassumption.
  - intros c h h' H1 H2. apply Hretry in H1, H2. eapply I3; eassumption.
  - intros c g d' H1 H2.
    destruct (Hlive c g H1) as [[E1 E2]|[N1 L1]].
    + subst. apply S1, H2.
    + destruct (decide (c = c0)) as [->|Hne]; [exfalso; eapply Hnl; eassumption|].
      rewrite S2 in H2 by exact Hne. eapply I4; eassumption.
  - intros c H. rewrite Ecl in H. split.
    + intros g H1. destruct (Hsock c g H1) as [E|H2]; [congruence|].
      apply (proj1 (I5 c H) g H2).
    + intros h H1. apply Hretry in H1. apply (proj2 (I5 c H) h H1).
Qed.

(** One new retry timer for a downstream connection that has neither a
    live socket nor a pending retry. *)
Lemma cycleInv_spawn_retry w w' c0 n :
  cycleInv w ->
  (forall g, ~ live w c0 g) ->
  (forall h, ~ retry w c0 h) ->
  clients w !! c0 <> None ->
  sockets w' = sockets w ->
  (forall c h, retry w' c h -> retry w c h \/ (c = c0 /\ h = n)) ->
  clients w' = clients w ->
  sessionsKept w w' ->
  cycleInv w'.
Proof.
  intros (I1 & I2 & I3 & I4 & I5) Hnl Hnr Hcl Es Hr Ecl Hk.
  assert (Hlive : forall c g, live w' c g <-> live w c g)
    by (intros; unfold live; rewrite Es; reflexivity).
  assert (Hsock : forall c g, socketOf w' c g <-> socketOf w c g)
    by (intros; unfold socketOf; rewrite Es; reflexivity).
  split; [|split; [|split; [|split]]].
  - intros c g g' H1 H2. apply Hlive in H1, H2. eapply I1; eassumption.
  - intros c g h H1 H2. apply Hlive in H1.
    destruct (Hr c h H2) as [H3|[E1 E2]].
    + eapply I2; eassumption.
    + subst. eapply Hnl; eassumption.
  - intros c h h' H1 H2.
    destruct (Hr c h H1) as [H3|[E1 E2]]; destruct (Hr c h' H2) as [H4|[E3 E4]];
      subst; try reflexivity; try (exfalso; eapply Hnr; eassumption).
    eapply I3; eassumption.
  - intros c g d' H1 H2. apply Hlive in H1.
    destruct (Hk c d' H2) as (d & Hd & E). rewrite E. eapply I4; eassumption.
  - intros c H. rewrite Ecl in H. split.
    + intros g H1. apply Hsock in H1. apply (proj1 (I5 c H) g H1).
    + intros h H1. destruct (Hr c h H1) as [H3|[E1 E2]]; [|congruence].
      apply (proj2 (I5 c H) h H3).
Qed.

Lemma cycleInv_setup w w' c0 b env now g :
  wellFormed w ->
  cycleInv w ->
  (forall g, ~ live w c0 g) ->
  (forall h, ~ retry w c0 h) ->
  clients w !! c0 <> None ->
  setupGeminiConnection c0 b env now w = Some (g, w') ->
  cycleInv w'.
Proof.
  intros Hwf Hinv Hnl Hnr Hcl Hs.
  destruct (setupGeminiConnection_spec _ _ _ _ _ _ _ Hs)
    as (cred & a & d' & _ & Hg & _ & _ & _ & _ & _ & Hsock & Htim & Hclients & _).
  eapply (cycleInv_spawn_socket w w' c0 g); try eassumption; try reflexivity.
  - intros d1 Hd1.
    destruct (setupGeminiConnection_session _ _ _ _ _ _ _ c0 Hwf Hs) as [H1 _].
    destruct (H1 eq_refl) as (d2 & Hd2 & Hgem & _). congruence.
  - intros c Hne.
    destruct (setupGeminiConnection_session _ _ _ _ _ _ _ c Hwf Hs) as [_ H2].
    apply H2, Hne.
Qed.

(** The upstream close handler touches no socket and arms at most the
    reconnect timer of the downstream connection of its socket. *)
Lemma onGeminiClose_cycle g w0 s :
  sockets w0 !! g = Some s ->
  let w' := onGeminiClose g w0 in
  sockets w' = sockets w0 /\
  clients w' = clients w0 /\
  (forall c h, retry w' c h ->
     retry w0 c h \/ (c = sock_clientWs s /\ h = nextId w0)).
Proof.
  intros Hs. unfold onGeminiClose, setTimer, alloc. rewrite Hs.
  assert (Hdel : forall c h (T : gmap nat Timer),
            (forall h' t, T !! h' = Some t -> timers w0 !! h' = Some t) ->
            (T !! h = Some (Reconnect c) \/ T !! h = Some (Fallback c)) ->
            retry w0 c h).
  { intros c h T HT [H|H]; [left|right]; apply HT, H. }
  assert (Hins : forall c h (T : gmap nat Timer),
            (forall h' t, T !! h' = Some t -> timers w0 !! h' = Some t) ->
            (<[nextId w0 := Reconnect (sock_clientWs s)]> T !! h = Some (Reconnect c) \/
             <[nextId w0 := Reconnect (sock_clientWs s)]> T !! h = Some (Fallback c)) ->
            retry w0 c h \/ (c = sock_clientWs s /\ h = nextId w0)).
  { intros c h T HT. rewrite !lookup_insert. case_decide as Hh.
    - intros [[= ->]|?]; [|discriminate]. right. auto.
    - intros H. left. eapply Hdel; eassumption. }
  assert (Hsub : forall h0 h' t,
            delete h0 (timers w0) !! h' = Some t -> timers w0 !! h' = Some t)
    by (intros h0 h' t H; apply lookup_delete_Some in H; tauto).
  repeat case_match; simplify_eq; cbn; (split; [reflexivity|]); (split; [reflexivity|]);
    intros cx hx; unfold retry; cbn.
  all: intros Hx;
    first
      [ eapply Hins; [ | exact Hx ]; first [ apply Hsub | auto ]
      | left; eapply Hdel; [ | exact Hx ]; first [ apply Hsub | auto ] ].
Qed.

Lemma not_None_of_socket w c g :
  cycleInv w -> socketOf w c g -> clients w !! c <> None.
Proof.
  intros (_ & _ & _ & _ & I5) Hs Hc. exact (proj1 (I5 c Hc) g Hs).
Qed.

Lemma not_None_of_retry w c h :
  cycleInv w -> retry w c h -> clients w !! c <> None.
Proof.
  intros (_ & _ & _ & _ & I5) Hr Hc. exact (proj2 (I5 c Hc) h Hr).
Qed.

Lemma sessionsKept_frame w w' :
  clientConnections w' = clientConnections w ->
  objects w' = objects w ->
  sessionsKept w w'.
Proof.
  intros A B c d' H. rewrite (session_frame w w' c A B) in H. exists d'. auto.
Qed.

(** A retry timer of [c0] is about to fire: once it is disarmed the
    downstream connection has neither a live socket nor a retry. *)
Lemma cycleInv_retry_fired w h c0 :
  wellFormed w ->
  cycleInv w ->
  retry w c0 h ->
  let w1 := clearTimer h w in
  wellFormed w1 /\ cycleInv w1 /\
  (forall g, ~ live w1 c0 g) /\
  (forall h', ~ retry w1 c0 h') /\
  clients w1 !! c0 <> None.
Proof.
  intros Hwf Hinv Hr w1.
  assert (Hcalm : calm w w1) by (unfold w1; calm_tac).
  assert (Hp : preserves w w1) by (unfold w1; frame).
  split; [exact (preserves_wellFormed _ _ Hp Hwf)|].
  split; [exact (cycleInv_calm _ _ Hinv Hcalm (preserves_sessionsKept _ _ Hp))|].
  pose proof Hinv as (I1 & I2 & I3 & I4 & I5).
  split; [|split].
  - intros g Hl. exact (I2 c0 g h Hl Hr).
  - intros h' Hr'. assert (h' <> h /\ retry w c0 h') as [Hne Hr2].
    { unfold retry, w1, clearTimer in Hr'. cbn in Hr'. rewrite !lookup_delete in Hr'.
      case_decide as Hh; [destruct Hr'; discriminate|].
      split; [congruence | exact Hr']. }
    apply Hne. exact (I3 c0 h' h Hr2 Hr).
  - exact (not_None_of_retry w c0 h Hinv Hr).
Qed.

(** The invariant is kept by every event the runtime can raise. *)
Lemma lifecycleInv_step e w :
  lifecycleInv w -> legal w e -> lifecycleInv (step decode e w).
Proof.
  intros [Hwf Hinv] Hlegal. split; [apply wellFormed_step, Hwf|].
  assert (Hquiet : forall w', calm w w' -> preserves w w' -> cycleInv w')
    by (intros w' Hc Hp; exact (cycleInv_calm _ _ Hinv Hc (preserves_sessionsKept _ _ Hp))).
  pose proof Hinv as (I1 & I2 & I3 & I4 & I5).
  destruct e as [c0 env1 env2 now|c0 m now|c0|g|g now|g m now|g|g msg|h env now];
    cbn [step legal] in *.
  - unfold onConnection.
    set (w0 := set_clients (<[c0:=OPEN]> (clients w)) w).
    assert (Hcalm : calm w w0) by (unfold w0; apply calm_set_clients, calm_refl).
    assert (Hp : preserves w w0) by (unfold w0; frame).
    assert (Hinv0 : cycleInv w0) by (apply Hquiet; assumption).
    assert (Hwf0 : wellFormed w0) by exact (preserves_wellFormed _ _ Hp Hwf).
    assert (Hnl : forall g, ~ live w0 c0 g).
    { intros g Hl. apply (proj1 (I5 c0 Hlegal) g).
      apply live_socketOf. eapply calm_live; eassumption. }
    assert (Hnr : forall h, ~ retry w0 c0 h) by (intros h; exact (proj2 (I5 c0 Hlegal) h)).
    assert (Hcl : clients w0 !! c0 <> None)
      by (unfold w0; cbn; rewrite lookup_insert_eq; discriminate).
    destruct (setupGeminiConnection c0 true env1 now w0) as [[g1 w1]|] eqn:H1;
      [eapply cycleInv_setup; eassumption|].
    destruct (setupGeminiConnection c0 false env2 now w0) as [[g2 w2]|] eqn:H2;
      [eapply cycleInv_setup; eassumption|].
    exact Hinv0.
  - apply Hquiet; [apply calm_onClientMessage, calm_refl | apply onClientMessage_preserves].
  - set (w0 := set_clients (<[c0:=CLOSED]> (clients w)) w).
    assert (Hcalm : calm w w0) by (unfold w0; apply calm_set_clients, calm_refl).
    assert (Hp : preserves w w0) by (unfold w0; frame).
    apply (cycleInv_calm w); [exact Hinv | apply calm_onClientClose, Hcalm |].
    destruct (onClientClose_spec c0 w0) as [->|(w1 & Hp1 & ->)].
    + apply preserves_sessionsKept, Hp.
    + intros c d' Hd'. rewrite session_delete in Hd'.
      case_decide; [discriminate|].
      apply (preserves_sessionsKept w w1 (preserves_trans _ _ _ Hp Hp1) c d' Hd').
  - apply Hquiet.
    + apply calm_onGeminiOpen, calm_setReadyState; [apply calm_refl|].
      left. intros s Hs. rewrite Hs in Hlegal. cbn in Hlegal. congruence.
    + eapply preserves_trans; [|apply onGeminiOpen_preserves]. frame.
  - apply Hquiet; [apply calm_onGeminiPong, calm_refl | apply onGeminiPong_preserves].
  - apply Hquiet; [apply calm_onGeminiMessage, calm_refl | apply onGeminiMessage_preserves].
  - destruct Hlegal as (s & Hs & Hst).
    set (w0 := setReadyState g CLOSED w).
    assert (Hcalm : calm w w0)
      by (unfold w0; apply calm_setReadyState; [apply calm_refl | right; reflexivity]).
    assert (Hp : preserves w w0) by (unfold w0; frame).
    assert (Hinv0 : cycleInv w0) by (apply Hquiet; assumption).
    assert (Hs0 : sockets w0 !! g = Some (set_readyState CLOSED s))
      by (unfold w0, setReadyState; cbn; rewrite lookup_alter_eq, Hs; reflexivity).
    assert (Hlive : live w (sock_clientWs s) g) by (exists s; auto).
    destruct (onGeminiClose_cycle g w0 _ Hs0) as (Es & Ecl & Hr).
    eapply (cycleInv_spawn_retry w0 _ (sock_clientWs s) (nextId w0));
      [exact Hinv0 | | | | exact Es | exact Hr | exact Ecl
      | apply preserves_sessionsKept, onGeminiClose_preserves].
    + intros g' (s' & Hs' & Hc' & Hst').
      destruct (decide (g' = g)) as [->|Hne].
      * rewrite Hs0 in Hs'. injection Hs' as <-. apply Hst'. reflexivity.
      * apply Hne. apply (I1 (sock_clientWs s) g' g); [|exact Hlive].
        eapply calm_live; [exact Hcalm|]. exists s'. auto.
    + intros h Hh. exact (I2 _ g h Hlive Hh).
    + change (clients w0) with (clients w).
      apply (not_None_of_socket w _ g Hinv). exists s. auto.
  - apply Hquiet; [apply calm_onGeminiError, calm_refl | apply onGeminiError_preserves].
  - destruct (timers w !! h) as [[c0 g a|c0|c0]|] eqn:Ht; cbn [isInterval runTimer].
    + apply Hquiet; [apply calm_watchdogTick, calm_refl | apply watchdogTick_preserves].
    + destruct (cycleInv_retry_fired w h c0 Hwf Hinv (or_introl Ht))
        as (Hwf1 & Hinv1 & Hnl & Hnr & Hcl).
      unfold reconnectCallback.
      destruct (setupGeminiConnection c0 true env now (clearTimer h w)) as [[g1 w1]|] eqn:H1;
        [eapply cycleInv_setup; eassumption|].
      eapply (cycleInv_spawn_retry (clearTimer h w) _ c0 (nextId (clearTimer h w)));
        [exact Hinv1 | exact Hnl | exact Hnr | exact Hcl | reflexivity | | reflexivity
        | apply sessionsKept_frame; reflexivity].
      intros c h'. unfold retry, setTimer, alloc. cbn. rewrite !lookup_insert.
      case_decide as Hh; [|auto].
      intros [Hx|Hx]; [discriminate|]. injection Hx as <-. right. auto.
    + destruct (cycleInv_retry_fired w h c0 Hwf Hinv (or_intror Ht))
        as (Hwf1 & Hinv1 & Hnl & Hnr & Hcl).
      unfold fallbackCallback.
      destruct (setupGeminiConnection c0 false env now (clearTimer h w)) as [[g1 w1]|] eqn:H1;
        [eapply cycleInv_setup; eassumption | exact Hinv1].
    + exact Hinv.
Qed.

Lemma lifecycleInv_empty : lifecycleInv emptyWorld.
Proof.
  split; [apply wellFormed_empty|].
  assert (Hl : forall c g, ~ live emptyWorld c g).
  { intros c g (s & Hs & _). cbn in Hs. rewrite lookup_empty in Hs. discriminate. }
  assert (Hr : forall c h, ~ retry emptyWorld c h).
  { intros c h [H|H]; cbn in H; rewrite lookup_empty in H; discriminate. }
  split; [|split; [|split; [|split]]].
  - intros c g g' H. destruct (Hl c g H).
  - intros c g h H. destruct (Hl c g H).
  - intros c h h' H. destruct (Hr c h H).
  - intros c g d H. destruct (Hl c g H).
  - intros c _. split; [|apply Hr].
    intros g (s & Hs & _). cbn in Hs. rewrite lookup_empty in Hs. discriminate.
Qed.

Lemma lifecycleInv_run es w :
  lifecycleInv w -> legalRun decode es w -> lifecycleInv (run decode es w).
Proof.
  revert w. induction es as [|e es IH]; intros w Hinv Hl; [exact Hinv|].
  destruct Hl as [He Hes]. cbn. apply IH; [apply lifecycleInv_step; assumption | exact Hes].
Qed.


End Cycle.

(* ------------------------------------------------------------------ *)
(** ** The session over its life *)

Section Lifecycle.

Variable decode : jsstring -> jsstring.



End Lifecycle.

(* ------------------------------------------------------------------ *)
(** ** A socket that has left the open state *)





Lemma geminiOpen_alter_ne w g g' f :
  g' <> g ->
  bool_decide (readyState <$> alter f g' (sockets w) !! g = Some OPEN) = geminiOpen w g.
Proof. intros H. unfold geminiOpen. rewrite lookup_alter_ne by exact H. reflexivity. Qed.






Section Quiet.

Variable decode : jsstring -> jsstring.













End Quiet.

(* ------------------------------------------------------------------ *)
(** ** Watchdog and reconnection *)

Section Timers.

Variable decode : jsstring -> jsstring.


(** The static-key path never yields a bearer credential. *)
Lemma createGeminiConnection_static env cred :
  createGeminiConnection false env = Some cred ->
  exists k, cred = ApiKey k /\ GEMINI_API_KEY env = Some k.
Proof.
  unfold createGeminiConnection.
  destruct (GEMINI_API_KEY env) as [k|]; [|discriminate].
  destruct (JsString.truthy k); [|discriminate].
  intros [= <-]. exists k. split; reflexivity.
Qed.

(** C5.  When the 3-second reconnect timer fires and
    [setupGeminiConnection] throws, the session, the sockets and the
    outgoing traffic are untouched and exactly one timer is armed in
    exchange for the one that fired: the 2-second fallback.  When that
    one fires it runs the static-key path only (a socket it creates is
    authenticated with the API key), and, whether the attempt returns or
    throws, it arms no timer: nothing retries after it. *)
Theorem reconnect_failure_one_static_key_retry
    (w : World) (h c : nat) (env env' : Env) (now now' : Z) :
  timers w !! h = Some (Reconnect c) ->
  createGeminiConnection true env = None ->
  let w1 := step decode (TimerFires h env now) w in
  let w2 := step decode (TimerFires (nextId w) env' now') w1 in
  timerDelay (Reconnect c) = 3000 /\
  timers w1 = <[nextId w := Fallback c]> (delete h (timers w)) /\
  timerDelay (Fallback c) = 2000 /\
  clientConnections w1 = clientConnections w /\
  objects w1 = objects w /\
  sockets w1 = sockets w /\
  toGemini w1 = toGemini w /\
  toClient w1 = toClient w /\
  timers w2 = delete (nextId w) (timers w1) /\
  match createGeminiConnection false env' with
  | None =>
    clientConnections w2 = clientConnections w1 /\
    objects w2 = objects w1 /\
    sockets w2 = sockets w1
  | Some cred =>
    (exists k, cred = ApiKey k) /\
    exists s, sockets w2 = <[nextId w1 := s]> (sockets w1) /\
      sock_credential s = cred /\ sock_clientWs s = c /\
      readyState s = CONNECTING
  end.
Proof.
  intros Ht Hthrow. cbn [step]. rewrite Ht. cbn [isInterval runTimer].
  unfold reconnectCallback.
  rewrite (proj2 (setupGeminiConnection_throws c true env now (clearTimer h w)) Hthrow).
  unfold setTimer, alloc. cbn [snd].
  repeat (split; [reflexivity|]).
  cbn [timers set_timers set_nextId clearTimer nextId].
  rewrite lookup_insert_eq. cbn [isInterval runTimer].
  unfold fallbackCallback.
  match goal with |- context [setupGeminiConnection c false env' now' ?w0] =>
    set (w0' := w0) end.
  destruct (setupGeminiConnection c false env' now' w0') as [[g2 w2]|] eqn:Hs.
  - destruct (setupGeminiConnection_spec _ _ _ _ _ _ _ Hs)
      as (cred & a & d' & Hcred & Hg & _ & _ & _ & _ & _ & Hsock & Htim & _).
    rewrite Hcred. split; [rewrite Htim; reflexivity|].
    split.
    { destruct (createGeminiConnection_static _ _ Hcred) as (k & -> & _). eauto. }
    eexists. split; [rewrite Hsock, Hg; reflexivity|]. repeat split; reflexivity.
  - apply setupGeminiConnection_throws in Hs. rewrite Hs.
    repeat split; reflexivity.
Qed.

End Timers.

(* ------------------------------------------------------------------ *)
(** ** Teardown *)

Section Teardown.

Variable decode : jsstring -> jsstring.

(** What the downstream close handler does achieve: the session is
    removed, the two timers recorded on it are disarmed and its upstream
    socket is not open afterwards, so that a watchdog tick bound to that
    socket changes nothing. *)
Lemma teardown_recorded_timers (w : World) (c : nat) (d : ConnectionData)
    (a : nat) (now : Z) :
  session w c = Some d ->
  let w' := step decode (ClientCloses c) w in
  session w' c = None /\
  (forall h, reconnectTimeout d = Some h -> timers w' !! h = None) /\
  (forall h, pingInterval d = Some h -> timers w' !! h = None) /\
  geminiOpen w' (gemini d) = false /\
  watchdogTick (gemini d) a now w' = w'.
Proof.
  intros Hs. apply session_Some in Hs as [a0 Ha].
  cbn [step]. unfold onClientClose.
  change (getConnection (set_clients (<[c:=CLOSED]> (clients w)) w) c)
    with (getConnection w c).
  rewrite Ha.
  set (w0 := set_clients (<[c:=CLOSED]> (clients w)) w).
  set (w1 := match reconnectTimeout d with Some h => clearTimer h w0 | None => w0 end).
  set (w2 := match pingInterval d with Some h => clearTimer h w1 | None => w1 end).
  assert (Hsock2 : sockets w2 = sockets w)
    by (unfold w2, w1; destruct (reconnectTimeout d), (pingInterval d); reflexivity).
  assert (Hclosed : geminiOpen
            (if geminiOpen w2 (gemini d) then closeGemini (gemini d) None w2 else w2)
            (gemini d) = false).
  { destruct (geminiOpen w2 (gemini d)) eqn:Hopen; [|exact Hopen].
    unfold closeGemini, geminiOpen. cbn.
    apply bool_decide_eq_false. rewrite lookup_alter_eq.
    unfold geminiOpen in Hopen. apply bool_decide_eq_true in Hopen.
    destruct (sockets w2 !! gemini d) as [s|]; [|discriminate].
    cbn in Hopen. injection Hopen as Hopen. cbn. rewrite Hopen. cbn. discriminate. }
  split; [rewrite session_delete; rewrite decide_True by reflexivity; reflexivity|].
  assert (Htim : forall w3, timers
            (set_clientConnections
               (delete c (clientConnections
                  (if geminiOpen w2 (gemini d) then closeGemini (gemini d) None w2 else w3)))
               (if geminiOpen w2 (gemini d) then closeGemini (gemini d) None w2 else w2))
            = timers w2)
    by (intros; destruct (geminiOpen w2 (gemini d)); reflexivity).
  split; [|split; [|split]].
  - intros h Hh. rewrite Htim. unfold w2, w1. rewrite Hh.
    destruct (pingInterval d) as [h'|]; cbn.
    + rewrite lookup_delete. case_decide; [reflexivity|]. apply lookup_delete_eq.
    + apply lookup_delete_eq.
  - intros h Hh. rewrite Htim. unfold w2. rewrite Hh. cbn. apply lookup_delete_eq.
  - exact Hclosed.
  - unfold watchdogTick.
    match goal with |- (if ?b then _ else _) = _ =>
      assert (Hb : b = false) by exact Hclosed; rewrite Hb end.
    reflexivity.
Qed.

End Teardown.

(* ------------------------------------------------------------------ *)
(** ** The properties on the sample runs *)

Lemma turn_complete_when_upstream_not_open_witness :
  session connectingWorld 0 <> None /\
  step plainDecoder (ClientSends 0 (Some turn_complete) 200) connectingWorld
  = connectingWorld.
Proof.
  split; [vm_compute; discriminate|].
  apply (turn_complete_when_upstream_not_open plainDecoder connectingWorld 0
           (mkConnectionData 0 None 1 None 100 100 [] [] 0 []) 200);
    vm_compute; reflexivity.
Defined.

Lemma clear_history_resets_session_witness :
  sessionLog
    (step plainDecoder (ClientSends 0 (Some clear_history) 200) connectedWorld) 0
  = Some [].
Proof.
  destruct (clear_history_resets_session plainDecoder connectedWorld 0
              connectedSession 200) as (d' & _ & H & _);
    [vm_compute; reflexivity | vm_compute; reflexivity | exact H].
Defined.




Lemma reconnect_failure_one_static_key_retry_witness :
  timers (step plainDecoder (TimerFires 4 envNothing 3100) droppedWorld)
  = {[ 5%nat := Fallback 0 ]}.
Proof.
  destruct (reconnect_failure_one_static_key_retry plainDecoder droppedWorld 4 0
              envNothing envApiKey 3100 5100)
    as (_ & H & _);
    [vm_compute; reflexivity | vm_compute; reflexivity | ].
  rewrite H. vm_compute. reflexivity.
Defined.

Lemma reconnectedTrace_legal : legalRun plainDecoder reconnectedTrace emptyWorld.
Proof.
  vm_compute.
  repeat split; try reflexivity; eexists; (split; [reflexivity | discriminate]).
Qed.



(** C2 on the program: the fallback timer outlives the teardown.  After
    the reconnect attempt has thrown, the downstream client disconnects;
    the close handler clears [reconnectTimeout] (the handle of the timer
    that has already fired) and [pingInterval], and removes the session,
    but the 2-second fallback timer, whose handle was never stored,
    stays armed.  When it fires with an API key configured it registers
    a session for the closed downstream connection again, on a new
    upstream socket, and that socket gets the setup frame when it
    opens. *)
Theorem fallback_timer_outlives_teardown :
  session abandonedWorld 0 = None /\
  clients abandonedWorld !! 0%nat = Some CLOSED /\
  timers abandonedWorld = {[ 5%nat := Fallback 0 ]} /\
  let w' := step plainDecoder (TimerFires 5 envApiKey 5100) abandonedWorld in
  session w' 0 = Some (mkConnectionData 6 None 7 None 5100 5100 [] [] 0 []) /\
  sockets w' !! 6%nat = Some (mkSocket CONNECTING 0 8 7 (ApiKey (JsString.lit "AIza.key"))) /\
  toGemini (step plainDecoder (GeminiOpens 6) w') =
    toGemini abandonedWorld ++ [(6%nat, Send (Setup []))].
Proof. vm_compute. repeat split; reflexivity. Qed.

(** The history trim of the upstream message handler, for comparison
    with C3: whatever the log holds, at most 30 entries are left, the
    most recent ones in their order. *)
Lemma trimHistory_cap (l : list Entry) :
  (length (trimHistory l) <= HISTORY_CAP)%nat /\
  trimHistory l = drop (length l - HISTORY_CAP) l.
Proof.
  unfold trimHistory. case_bool_decide as H.
  - split; [|reflexivity]. rewrite length_drop. unfold HISTORY_CAP in *. lia.
  - replace (length l - HISTORY_CAP)%nat with 0%nat by lia.
    split; [lia | reflexivity].
Qed.

(** C3 on the program: the downstream [turn_complete] handler pushes
    a [user] entry and does not trim ([userTurns_log_grows]).
    Thirty-one user turns in a row, with no upstream turn completing in
    between, leave thirty-one entries in the log. *)
Theorem user_turns_exceed_history_cap :
  length <$> sessionLog (run plainDecoder (userTurns 0 31) connectedWorld) 0
  = Some 31%nat /\
  (HISTORY_CAP < 31)%nat.
Proof. split; [vm_compute; reflexivity | unfold HISTORY_CAP; lia]. Qed.

(* ------------------------------------------------------------------ *)
(** ** The rendered history *)

Lemma fold_appendEntry (l : list Entry) (acc : jsstring) :
  fold_left appendEntry l acc = acc ++ entryLines l.
Proof.
  revert acc. induction l as [|e l IH]; intros acc.
  - cbn. rewrite app_nil_r. reflexivity.
  - cbn [fold_left]. rewrite IH. unfold appendEntry, entryLines, entryLine.
    cbn [List.map List.concat]. rewrite <- !app_assoc. reflexivity.
Qed.

Lemma entryLines_app (l1 l2 : list Entry) :
  entryLines (l1 ++ l2) = entryLines l1 ++ entryLines l2.
Proof. unfold entryLines. rewrite List.map_app, List.concat_app. reflexivity. Qed.

(** X1.  The history block is empty for the empty log and for no other log,
    so the system instruction is the bare persona text exactly when
    there is no history. *)
Theorem history_block_empty_iff (log : list Entry) :
  (buildConversationHistory log = [] <-> log = []) /\
  (systemText log = Text.persona <-> log = []).
Proof.
  assert (H : buildConversationHistory log = [] <-> log = []).
  { split.
    - destruct log as [|e log]; [reflexivity|].
      unfold buildConversationHistory. cbn [length Nat.eqb].
      rewrite fold_appendEntry. intros H.
      apply (f_equal (@length N)) in H. rewrite !length_app in H.
      cbn in H. lia.
    - intros ->. reflexivity. }
  split; [exact H|].
  unfold systemText. split.
  - intros E. apply H. rewrite <- (app_nil_r Text.persona) in E at 2.
    exact (app_inv_head _ _ _ E).
  - intros E. apply H in E. rewrite E. apply app_nil_r.
Qed.

(** X2.  Every entry is rendered once, at its place: the block for a log is
    the header, the lines of the entries before it, the entry's tag, its
    text and a line feed, the lines of the entries after it, and the
    footer. *)
Theorem history_block_in_order (l1 l2 : list Entry) (e : Entry) :
  buildConversationHistory (l1 ++ e :: l2) =
  Text.header ++ entryLines l1
    ++ (Text.tag (role e) ++ text e ++ Text.nl)
    ++ entryLines l2 ++ Text.footer.
Proof.
  unfold buildConversationHistory.
  replace (length (l1 ++ e :: l2) =? 0)%nat with false
    by (symmetry; apply Nat.eqb_neq; rewrite length_app; cbn; lia).
  rewrite fold_appendEntry, entryLines_app.
  change (entryLines (e :: l2)) with (entryLine e ++ entryLines l2).
  unfold entryLine. rewrite <- !app_assoc. reflexivity.
Qed.

(* ------------------------------------------------------------------ *)
(** ** The open handshake *)

Section Handshake.

Variable decode : jsstring -> jsstring.


End Handshake.

(* ------------------------------------------------------------------ *)
(** ** Only trimmed, non-empty text enters the log *)

Module TrimFacts.

Import JsString.

Lemma trimStart_idem (x : jsstring) : trimStart (trimStart x) = trimStart x.
Proof.
  induction x as [|c x IH]; [reflexivity|].
  cbn [trimStart]. destruct (isWhiteSpace c) eqn:Hc; [exact IH|].
  cbn [trimStart]. rewrite Hc. reflexivity.
Qed.

Lemma trimStart_length (x : jsstring) : (length (trimStart x) <= length x)%nat.
Proof.
  induction x as [|c x IH]; [reflexivity|].
  cbn [trimStart]. destruct (isWhiteSpace c); cbn; lia.
Qed.

(** What [trimStart] removes is white space. *)
Lemma trimStart_split (x : jsstring) :
  exists b, blank b /\ x = b ++ trimStart x.
Proof.
  induction x as [|c x (b & Hb & E)]; [exists []; split; [constructor | reflexivity]|].
  cbn [trimStart]. destruct (isWhiteSpace c) eqn:Hc.
  - exists (c :: b). split; [constructor; assumption | cbn; congruence].
  - exists []. split; [constructor | reflexivity].
Qed.

Lemma trimEnd_split (y : jsstring) :
  exists b, blank b /\ y = trimEnd y ++ b.
Proof.
  destruct (trimStart_split (rev y)) as (b & Hb & E).
  exists (rev b). split.
  - unfold blank in *. apply List.Forall_rev, Hb.
  - unfold trimEnd. rewrite <- rev_app_distr, <- E, rev_involutive. reflexivity.
Qed.

(** Trimming the end keeps a clean start clean. *)
Lemma trimStart_trimEnd (y : jsstring) :
  trimStart y = y -> trimStart (trimEnd y) = trimEnd y.
Proof.
  intros Hy. destruct (trimEnd_split y) as (b & _ & E).
  destruct (trimEnd y) as [|c z] eqn:Hz; [reflexivity|].
  cbn [trimStart]. destruct (isWhiteSpace c) eqn:Hc; [|reflexivity].
  exfalso. rewrite E in Hy. cbn [app trimStart] in Hy. rewrite Hc in Hy.
  pose proof (trimStart_length (z ++ b)) as Hlen. rewrite Hy in Hlen. cbn in Hlen. lia.
Qed.

Lemma trimEnd_idem (y : jsstring) : trimEnd (trimEnd y) = trimEnd y.
Proof. unfold trimEnd. rewrite rev_involutive, trimStart_idem. reflexivity. Qed.

Lemma trim_idem (x : jsstring) : trim (trim x) = trim x.
Proof.
  unfold trim. rewrite (trimStart_trimEnd (trimStart x)) by apply trimStart_idem.
  apply trimEnd_idem.
Qed.

Lemma truthy_not_nil (x : jsstring) : truthy x = true -> x <> [].
Proof. destruct x; [discriminate | discriminate]. Qed.

Lemma trimmed_not_blank (x : jsstring) : x <> [] -> trim x = x -> ~ blank x.
Proof. intros Hne Ht Hb. apply Hne. rewrite <- Ht. apply Trim.trim_blank, Hb. Qed.

End TrimFacts.

Lemma entryClean_pushed (r : Role) (x : jsstring) (now : Z) :
  JsString.truthy (JsString.trim x) = true ->
  entryClean (mkEntry r (JsString.trim x) now).
Proof.
  intros H. split; cbn [text].
  - apply TrimFacts.truthy_not_nil, H.
  - apply TrimFacts.trim_idem.
Qed.

Lemma logsClean_frame w w' : arrays w' = arrays w -> logsClean w -> logsClean w'.
Proof. intros E H addr l. rewrite E. apply H. Qed.

Lemma logsClean_arrayAt w addr : logsClean w -> Forall entryClean (arrayAt w addr).
Proof.
  intros H. unfold arrayAt. destruct (arrays w !! addr) as [l|] eqn:E; cbn.
  - exact (H addr l E).
  - constructor.
Qed.

Lemma logsClean_putArray w addr l :
  logsClean w -> Forall entryClean l -> logsClean (putArray addr l w).
Proof.
  intros H Hl a l'. cbn. rewrite lookup_insert. case_decide.
  - intros [= <-]. exact Hl.
  - apply H.
Qed.

Lemma trimHistory_Forall (P : Entry -> Prop) (l : list Entry) :
  Forall P l -> Forall P (trimHistory l).
Proof.
  intros H. unfold trimHistory. case_bool_decide; [apply Forall_drop, H | exact H].
Qed.

Ltac clean_side H :=
  first
    [ constructor
    | apply trimHistory_Forall; apply Forall_app; split;
        [ exact (logsClean_arrayAt _ _ H)
        | constructor; [apply entryClean_pushed; assumption | constructor] ]
    | apply Forall_app; split;
        [ exact (logsClean_arrayAt _ _ H)
        | constructor; [apply entryClean_pushed; assumption | constructor] ] ].

Ltac clean_step H :=
  first
    [ exact H
    | match goal with
      | |- logsClean (putArray _ _ ?w1) =>
          apply logsClean_putArray; [ | clean_side H ]
      | |- logsClean (putObject _ _ ?w1) => apply (logsClean_frame w1); [reflexivity|]
      | |- logsClean (sendClient _ _ ?w1) => apply (logsClean_frame w1); [reflexivity|]
      | |- logsClean (sendGemini _ _ ?w1) => apply (logsClean_frame w1); [reflexivity|]
      | |- logsClean (callGemini _ _ ?w1) => apply (logsClean_frame w1); [reflexivity|]
      | |- logsClean (closeGemini _ _ ?w1) => apply (logsClean_frame w1); [reflexivity|]
      | |- logsClean (clearTimer _ ?w1) => apply (logsClean_frame w1); [reflexivity|]
      | |- logsClean (setReadyState _ _ ?w1) => apply (logsClean_frame w1); [reflexivity|]
      | |- logsClean (set_timers _ ?w1) => apply (logsClean_frame w1); [reflexivity|]
      | |- logsClean (set_nextId _ ?w1) => apply (logsClean_frame w1); [reflexivity|]
      | |- logsClean (set_clients _ ?w1) => apply (logsClean_frame w1); [reflexivity|]
      | |- logsClean (set_clientConnections _ ?w1) =>
          apply (logsClean_frame w1); [reflexivity|]
      end ].

Ltac clean_tac H := repeat clean_step H.

Section CleanLogs.

Variable decode : jsstring -> jsstring.

Lemma logsClean_onClientMessage c m now w :
  logsClean w -> logsClean (onClientMessage c m now w).
Proof.
  intros H. unfold onClientMessage, alloc.
  repeat case_match; simplify_eq; clean_tac H.
Qed.

Lemma logsClean_onGeminiMessage g m now w :
  logsClean w -> logsClean (onGeminiMessage decode g m now w).
Proof.
  intros H. unfold onGeminiMessage.
  repeat case_match; simplify_eq; clean_tac H.
Qed.

Lemma logsClean_onGeminiOpen g w : logsClean w -> logsClean (onGeminiOpen g w).
Proof.
  intros H. unfold onGeminiOpen, setTimer, alloc.
  repeat case_match; simplify_eq; clean_tac H.
Qed.

Lemma logsClean_onGeminiClose g w : logsClean w -> logsClean (onGeminiClose g w).
Proof.
  intros H. unfold onGeminiClose, setTimer, alloc.
  repeat case_match; simplify_eq; clean_tac H.
Qed.

Lemma logsClean_onGeminiPong g now w : logsClean w -> logsClean (onGeminiPong g now w).
Proof.
  intros H. unfold onGeminiPong.
  repeat case_match; simplify_eq; clean_tac H.
Qed.

Lemma logsClean_onGeminiError g msg w : logsClean w -> logsClean (onGeminiError g msg w).
Proof.
  intros H. unfold onGeminiError.
  repeat case_match; simplify_eq; clean_tac H.
Qed.

Lemma logsClean_onClientClose c w : logsClean w -> logsClean (onClientClose c w).
Proof.
  intros H. unfold onClientClose.
  repeat case_match; simplify_eq; clean_tac H.
Qed.

Lemma logsClean_watchdogTick g a now w : logsClean w -> logsClean (watchdogTick g a now w).
Proof.
  intros H. unfold watchdogTick.
  repeat case_match; simplify_eq; clean_tac H.
Qed.

Lemma logsClean_setup c b env now w :
  logsClean w ->
  match setupGeminiConnection c b env now w with
  | Some (_, w') => logsClean w'
  | None => True
  end.
Proof.
  intros H.
  destruct (setupGeminiConnection c b env now w) as [[g w']|] eqn:Hs; [|exact I].
  destruct (setupGeminiConnection_spec _ _ _ _ _ _ _ Hs)
    as (cred & a & d' & _ & _ & _ & _ & _ & _ & _ & _ & _ & _ & _ & _ & Harr).
  destruct (session w c).
  - destruct Harr as [_ E]. exact (logsClean_frame w w' E H).
  - destruct Harr as [_ E]. intros addr l. rewrite E, lookup_insert.
    case_decide; [intros [= <-]; constructor | apply H].
Qed.

Lemma logsClean_step e w : logsClean w -> logsClean (step decode e w).
Proof.
  intros H.
  destruct e as [c0 env1 env2 now|c0 m now|c0|g|g now|g m now|g|g msg|h env now];
    cbn [step].
  - unfold onConnection.
    set (w0 := set_clients (<[c0:=OPEN]> (clients w)) w).
    assert (H0 : logsClean w0) by (unfold w0; clean_tac H).
    pose proof (logsClean_setup c0 true env1 now w0 H0) as H1.
    pose proof (logsClean_setup c0 false env2 now w0 H0) as H2.
    destruct (setupGeminiConnection c0 true env1 now w0) as [[g1 w1]|]; [exact H1|].
    destruct (setupGeminiConnection c0 false env2 now w0) as [[g2 w2]|]; [exact H2|].
    exact H0.
  - apply logsClean_onClientMessage, H.
  - apply logsClean_onClientClose. clean_tac H.
  - apply logsClean_onGeminiOpen. clean_tac H.
  - apply logsClean_onGeminiPong, H.
  - apply logsClean_onGeminiMessage, H.
  - apply logsClean_onGeminiClose. clean_tac H.
  - apply logsClean_onGeminiError, H.
  - destruct (timers w !! h) as [[c0 g a|c0|c0]|]; cbn [isInterval runTimer].
    + apply logsClean_watchdogTick, H.
    + unfold reconnectCallback.
      assert (H0 : logsClean (clearTimer h w)) by clean_tac H.
      pose proof (logsClean_setup c0 true env now _ H0) as H1.
      destruct (setupGeminiConnection c0 true env now (clearTimer h w)) as [[g1 w1]|];
        [exact H1|].
      unfold setTimer, alloc. cbn [snd]. clean_tac H.
    + unfold fallbackCallback.
      assert (H0 : logsClean (clearTimer h w)) by clean_tac H.
      pose proof (logsClean_setup c0 false env now _ H0) as H1.
      destruct (setupGeminiConnection c0 false env now (clearTimer h w)) as [[g1 w1]|];
        [exact H1 | exact H0].
    + exact H.
Qed.

Lemma logsClean_run es w : logsClean w -> logsClean (run decode es w).
Proof.
  revert w. induction es as [|e es IH]; intros w H; [exact H|].
  cbn. apply IH, logsClean_step, H.
Qed.

(** X4.  Whatever the events, every entry of a session's log has a text that
    is not empty, is not white space only, and has no white space at
    either end: the two append paths push trimmed text and only when it
    is not empty. *)
Theorem log_entries_trimmed_nonempty
    (es : list Event) (c : nat) (log : list Entry) (e : Entry) :
  sessionLog (run decode es emptyWorld) c = Some log ->
  In e log ->
  text e <> [] /\ JsString.trim (text e) = text e /\ ~ JsString.blank (text e).
Proof.
  intros Hlog Hin.
  assert (Hclean : logsClean (run decode es emptyWorld)).
  { apply logsClean_run. intros addr l H. cbn in H. rewrite lookup_empty in H.
    discriminate. }
  unfold sessionLog in Hlog.
  destruct (session (run decode es emptyWorld) c) as [d|]; [|discriminate].
  cbn in Hlog. injection Hlog as <-.
  pose proof (logsClean_arrayAt _ (conversationLog d) Hclean) as Hall.
  rewrite Forall_forall in Hall. apply list_elem_of_In in Hin.
  destruct (Hall e Hin) as [Hne Ht].
  split; [exact Hne|]. split; [exact Ht|].
  apply TrimFacts.trimmed_not_blank; assumption.
Qed.

End CleanLogs.

(* ------------------------------------------------------------------ *)
(** ** Nothing is called on a socket that is not open *)

Lemma callsOn_app g l l' : callsOn g (l ++ l') = callsOn g l ++ callsOn g l'.
Proof. unfold callsOn. apply List.filter_app. Qed.

Lemma untouched_refl g w : geminiOpen w g = false -> untouched g w w.
Proof. intros H. split; [exact H | reflexivity]. Qed.

Lemma untouched_trans g w1 w2 w3 :
  untouched g w1 w2 -> untouched g w2 w3 -> untouched g w1 w3.
Proof. intros [A B] [C D]. split; [exact C | congruence]. Qed.

Lemma untouched_frame g w w1 w2 :
  untouched g w w1 ->
  sockets w2 = sockets w1 ->
  toGemini w2 = toGemini w1 ->
  untouched g w w2.
Proof.
  intros [A B] E1 E2. split.
  - unfold geminiOpen in *. rewrite E1. exact A.
  - rewrite E2. exact B.
Qed.

(** A call on a socket that is open is a call on another socket. *)
Lemma untouched_callGemini g w w1 g' a :
  untouched g w w1 ->
  g' <> g \/ geminiOpen w1 g' = true ->
  untouched g w (callGemini g' a w1).
Proof.
  intros [A B] H.
  assert (Hne : g' <> g) by (destruct H as [H|H]; [exact H | intros ->; congruence]).
  split; [exact A|].
  change (toGemini (callGemini g' a w1)) with (toGemini w1 ++ [(g', a)]).
  rewrite callsOn_app, B. unfold callsOn at 2. cbn [List.filter fst].
  rewrite bool_decide_eq_false_2 by exact Hne. apply app_nil_r.
Qed.

Lemma untouched_closeGemini g w w1 g' r :
  untouched g w w1 ->
  geminiOpen w1 g' = true ->
  untouched g w (closeGemini g' r w1).
Proof.
  intros [A B] H.
  assert (Hne : g' <> g) by (intros ->; congruence).
  split.
  - unfold closeGemini, geminiOpen. cbn. rewrite lookup_alter_ne by exact Hne. exact A.
  - change (toGemini (closeGemini g' r w1)) with (toGemini w1 ++ [(g', Close r)]).
    rewrite callsOn_app, B. unfold callsOn at 2. cbn [List.filter fst].
    rewrite bool_decide_eq_false_2 by exact Hne. apply app_nil_r.
Qed.

Lemma untouched_setReadyState g w w1 g' st :
  untouched g w w1 ->
  g' <> g \/ st <> OPEN ->
  untouched g w (setReadyState g' st w1).
Proof.
  intros [A B] H. split; [|exact B].
  unfold setReadyState, geminiOpen in *. cbn.
  destruct (decide (g' = g)) as [->|Hne].
  - destruct H as [H|H]; [congruence|].
    apply bool_decide_eq_false. rewrite lookup_alter_eq.
    destruct (sockets w1 !! g); cbn; congruence.
  - rewrite lookup_alter_ne by exact Hne. exact A.
Qed.

Ltac untouched_step :=
  first
    [ assumption
    | match goal with
      | |- untouched _ _ (closeGemini _ _ ?w1) =>
          apply untouched_closeGemini; [ | assumption ]
      | |- untouched _ _ (sendGemini _ _ ?w1) =>
          apply untouched_callGemini;
            [ | first [left; assumption | right; assumption] ]
      | |- untouched _ _ (callGemini _ _ ?w1) =>
          apply untouched_callGemini;
            [ | first [left; assumption | right; assumption] ]
      | |- untouched _ _ (sendClient _ _ ?w1) =>
          apply (untouched_frame _ _ w1); [ | reflexivity | reflexivity ]
      | |- untouched _ _ (putObject _ _ ?w1) =>
          apply (untouched_frame _ _ w1); [ | reflexivity | reflexivity ]
      | |- untouched _ _ (putArray _ _ ?w1) =>
          apply (untouched_frame _ _ w1); [ | reflexivity | reflexivity ]
      | |- untouched _ _ (clearTimer _ ?w1) =>
          apply (untouched_frame _ _ w1); [ | reflexivity | reflexivity ]
      | |- untouched _ _ (set_timers _ ?w1) =>
          apply (untouched_frame _ _ w1); [ | reflexivity | reflexivity ]
      | |- untouched _ _ (set_clients _ ?w1) =>
          apply (untouched_frame _ _ w1); [ | reflexivity | reflexivity ]
      | |- untouched _ _ (set_nextId _ ?w1) =>
          apply (untouched_frame _ _ w1); [ | reflexivity | reflexivity ]
      | |- untouched _ _ (set_clientConnections _ ?w1) =>
          apply (untouched_frame _ _ w1); [ | reflexivity | reflexivity ]
      end ].

Ltac untouched_tac := repeat untouched_step.

Section Untouched.

Variable decode : jsstring -> jsstring.

Lemma untouched_setup g w w0 c b env now :
  untouched g w w0 ->
  match setupGeminiConnection c b env now w0 with
  | Some (_, w') => untouched g w w'
  | None => True
  end.
Proof.
  intros [A B].
  destruct (setupGeminiConnection c b env now w0) as [[g0 w']|] eqn:Hs; [|exact I].
  destruct (setupGeminiConnection_spec _ _ _ _ _ _ _ Hs)
    as (cred & a & d' & _ & _ & _ & _ & _ & _ & _ & Hsock & _ & _ & _ & Hout & _).
  split; [|rewrite Hout; exact B].
  unfold geminiOpen in *. rewrite Hsock. apply bool_decide_eq_false.
  apply bool_decide_eq_false in A.
  rewrite lookup_insert. case_decide; cbn; [congruence | exact A].
Qed.

Lemma untouched_onGeminiOpen g w w0 g0 :
  g0 <> g -> untouched g w w0 -> untouched g w (onGeminiOpen g0 w0).
Proof.
  intros Hne Hq. unfold onGeminiOpen, setTimer, alloc.
  repeat case_match; simplify_eq; untouched_tac.
Qed.

Lemma untouched_onGeminiClose g w w0 g0 :
  untouched g w w0 -> untouched g w (onGeminiClose g0 w0).
Proof.
  intros Hq. unfold onGeminiClose, setTimer, alloc.
  repeat case_match; simplify_eq; untouched_tac.
Qed.

Lemma untouched_onClientClose g w w0 c :
  untouched g w w0 -> untouched g w (onClientClose c w0).
Proof.
  intros Hq. unfold onClientClose.
  repeat case_match; simplify_eq; untouched_tac.
Qed.

Lemma untouched_onClientMessage g w w0 c m now :
  untouched g w w0 -> untouched g w (onClientMessage c m now w0).
Proof.
  intros Hq. unfold onClientMessage, alloc.
  repeat case_match; simplify_eq; untouched_tac.
Qed.

Lemma untouched_onGeminiPong g w w0 g0 now :
  untouched g w w0 -> untouched g w (onGeminiPong g0 now w0).
Proof.
  intros Hq. unfold onGeminiPong.
  repeat case_match; simplify_eq; untouched_tac.
Qed.

Lemma untouched_onGeminiMessage g w w0 g0 m now :
  untouched g w w0 -> untouched g w (onGeminiMessage decode g0 m now w0).
Proof.
  intros Hq. unfold onGeminiMessage.
  repeat case_match; simplify_eq; untouched_tac.
Qed.

Lemma untouched_onGeminiError g w w0 g0 msg :
  untouched g w w0 -> untouched g w (onGeminiError g0 msg w0).
Proof.
  intros Hq. unfold onGeminiError.
  repeat case_match; simplify_eq; untouched_tac.
Qed.

Lemma untouched_watchdogTick g w w0 g0 a now :
  untouched g w w0 -> untouched g w (watchdogTick g0 a now w0).
Proof.
  intros Hq. unfold watchdogTick.
  repeat case_match; simplify_eq; untouched_tac.
Qed.

(** X5.  The relay never writes to, pings or closes an upstream socket that
    is not open: whatever the event, short of the socket's own open
    event, the list of calls made on such a socket is what it was, and
    the socket is still not open. *)
Theorem no_call_on_socket_not_open (g : nat) (e : Event) (w : World) :
  geminiOpen w g = false ->
  e <> GeminiOpens g ->
  callsOn g (toGemini (step decode e w)) = callsOn g (toGemini w) /\
  geminiOpen (step decode e w) g = false.
Proof.
  intros Hq Hne. pose proof (untouched_refl g w Hq) as Hq0.
  enough (H : untouched g w (step decode e w)) by (destruct H; split; assumption).
  destruct e as [c0 env1 env2 now|c0 m now|c0|g0|g0 now|g0 m now|g0|g0 msg|h env now];
    cbn [step].
  - unfold onConnection.
    set (w0 := set_clients (<[c0:=OPEN]> (clients w)) w).
    assert (H0 : untouched g w w0) by (unfold w0; untouched_tac).
    pose proof (untouched_setup g w w0 c0 true env1 now H0) as H1.
    pose proof (untouched_setup g w w0 c0 false env2 now H0) as H2.
    destruct (setupGeminiConnection c0 true env1 now w0) as [[g1 w1]|]; [exact H1|].
    destruct (setupGeminiConnection c0 false env2 now w0) as [[g2 w2]|]; [exact H2|].
    exact H0.
  - apply untouched_onClientMessage, Hq0.
  - apply untouched_onClientClose. untouched_tac.
  - assert (Hg : g0 <> g) by congruence.
    apply untouched_onGeminiOpen; [exact Hg|].
    apply untouched_setReadyState; [exact Hq0 | left; exact Hg].
  - apply untouched_onGeminiPong, Hq0.
  - apply untouched_onGeminiMessage, Hq0.
  - apply untouched_onGeminiClose, untouched_setReadyState; [exact Hq0|]. right. discriminate.
  - apply untouched_onGeminiError, Hq0.
  - destruct (timers w !! h) as [[c0 g0 a|c0|c0]|]; cbn [isInterval runTimer].
    + apply untouched_watchdogTick, Hq0.
    + unfold reconnectCallback.
      assert (H0 : untouched g w (clearTimer h w)) by untouched_tac.
      pose proof (untouched_setup g w _ c0 true env now H0) as H1.
      destruct (setupGeminiConnection c0 true env now (clearTimer h w)) as [[g1 w1]|];
        [exact H1|].
      unfold setTimer, alloc. cbn [snd]. untouched_tac.
    + unfold fallbackCallback.
      assert (H0 : untouched g w (clearTimer h w)) by untouched_tac.
      pose proof (untouched_setup g w _ c0 false env now H0) as H1.
      destruct (setupGeminiConnection c0 false env now (clearTimer h w)) as [[g1 w1]|];
        [exact H1|exact H0].
    + exact Hq0.
Qed.

End Untouched.

(* ------------------------------------------------------------------ *)
(** ** Connection attempts *)

Section Attempts.

Variable decode : jsstring -> jsstring.

(** X6.  In a run that follows the runtime's life cycle a downstream
    connection has at most one upstream socket that has not closed, at
    most one pending reconnect or fallback timer, and never both at
    once: there is one connection attempt in flight at a time. *)
Theorem one_upstream_attempt_per_client (es : list Event) (c : nat) :
  legalRun decode es emptyWorld ->
  let w := run decode es emptyWorld in
  (forall g g', live w c g -> live w c g' -> g = g') /\
  (forall h h', retry w c h -> retry w c h' -> h = h') /\
  (forall g h, live w c g -> retry w c h -> False).
Proof.
  intros Hl w.
  destruct (lifecycleInv_run decode es emptyWorld lifecycleInv_empty Hl)
    as (_ & I1 & I2 & I3 & _).
  split; [apply I1|]. split; [apply I3 | apply I2].
Qed.

(** Which credential an attempt uses: the bearer token when the token is
    asked for and usable, otherwise the API key when it is usable; the
    attempt throws exactly when neither remains. *)
Lemma createGeminiConnection_outcome (useEphemeralToken : bool) (env : Env) :
  createGeminiConnection useEphemeralToken env =
  match (if useEphemeralToken then usableToken env else None), usableKey env with
  | Some t, _ => Some (Bearer t)
  | None, Some k => Some (ApiKey k)
  | None, None => None
  end.
Proof.
  unfold createGeminiConnection, usableToken, usableKey.
  destruct useEphemeralToken, (ephemeralToken env) as [t|], (GEMINI_API_KEY env) as [k|];
    try destruct (JsString.truthy t); try destruct (JsString.truthy k); reflexivity.
Qed.

(** X7.  A returning [setupGeminiConnection] for a downstream connection that
    already has a session keeps the conversation log (the same array,
    with its contents) and starts everything else afresh: the text
    accumulated for the current user and assistant utterances and the
    pending audio are dropped, no timer is recorded, and both probe
    times are the time of the call.  Without a session before, the new
    one has an empty log. *)
Theorem reestablished_session_keeps_log_only
    (w w' : World) (c g : nat) (useEphemeralToken : bool) (env : Env) (now : Z) :
  setupGeminiConnection c useEphemeralToken env now w = Some (g, w') ->
  exists d',
    session w' c = Some d' /\
    gemini d' = g /\
    readyState <$> sockets w' !! g = Some CONNECTING /\
    currentUserText d' = [] /\ currentAssistantText d' = [] /\
    audioBuffers d' = [] /\
    reconnectTimeout d' = None /\ pingInterval d' = None /\
    lastPong d' = now /\ lastPing d' = now /\
    match session w c with
    | Some d =>
      conversationLog d' = conversationLog d /\ sessionLog w' c = sessionLog w c
    | None => sessionLog w' c = Some []
    end.
Proof.
  unfold setupGeminiConnection.
  destruct (createGeminiConnection useEphemeralToken env) as [cred|]; [|discriminate].
  unfold alloc. cbn [set_nextId nextId].
  change (getConnection (set_nextId (S (nextId w)) w) c) with (getConnection w c).
  unfold sessionLog, session.
  destruct (getConnection w c) as [[a0 e]|]; cbn; intros [= <- <-];
    unfold getConnection; cbn; rewrite !lookup_insert_eq; cbn;
    eexists; (split; [reflexivity|]); cbn;
    repeat (split; [reflexivity|]).
  - split; reflexivity.
  - unfold arrayAt. cbn. rewrite lookup_insert_eq. reflexivity.
Qed.

End Attempts.

(* ------------------------------------------------------------------ *)
(** ** Upstream events *)

Section Upstream.

Variable decode : jsstring -> jsstring.

(** X8.  When an upstream socket closes and a session is registered for its
    downstream connection, the watchdog recorded on the session is
    disarmed whatever the state of the client.  With the client open the
    client is told that a reconnection is under way, with the current
    counter, and one reconnect timer is armed and recorded on the
    session; with the client not open nothing is sent and nothing is
    armed.  Nothing is written upstream in either case. *)
Theorem upstream_close_reconnects_only_for_open_client
    (w : World) (g a : nat) (s : Socket) (d : ConnectionData) :
  sockets w !! g = Some s ->
  clientConnections w !! sock_clientWs s = Some a ->
  objects w !! a = Some d ->
  let c := sock_clientWs s in
  let w' := step decode (GeminiCloses g) w in
  let disarmed :=
    match pingInterval d with
    | Some h => delete h (timers w)
    | None => timers w
    end in
  readyState <$> sockets w' !! g = Some CLOSED /\
  toGemini w' = toGemini w /\
  (clientOpen w c = true ->
   timers w' = <[nextId w := Reconnect c]> disarmed /\
   toClient w' = toClient w ++ [(c, reconnecting (reconnectCount d))] /\
   session w' c =
     Some (set_reconnectTimeout (Some (nextId w)) (set_pingInterval None d))) /\
  (clientOpen w c = false ->
   timers w' = disarmed /\
   toClient w' = toClient w /\
   session w' c = Some (set_pingInterval None d)).
Proof.
  intros Hs Hreg Hobj c w' disarmed. subst w' c. cbn [step].
  set (w0 := setReadyState g CLOSED w).
  assert (Hs0 : sockets w0 !! g = Some (set_readyState CLOSED s))
    by (unfold w0, setReadyState; cbn; rewrite lookup_alter_eq, Hs; reflexivity).
  assert (Hget : getConnection w0 (sock_clientWs s) = Some (a, d))
    by (apply getConnection_Some; split; assumption).
  unfold onGeminiClose, setTimer, alloc. rewrite Hs0.
  cbn [set_readyState sock_clientWs]. rewrite Hget.
  assert (Hd : set_pingInterval None d = d \/ exists h, pingInterval d = Some h).
  { destruct d as [? ? ? [h|] ? ? ? ? ? ?]; [right; eexists; reflexivity | left; reflexivity]. }
  subst disarmed.
  destruct (pingInterval d) as [h|] eqn:Hping.
  - change (clientOpen (putObject a (set_pingInterval None d) (clearTimer h w0)) (sock_clientWs s))
      with (clientOpen w (sock_clientWs s)).
    destruct (clientOpen w (sock_clientWs s)) eqn:Hopen.
    + split; [exact (f_equal (fmap readyState) Hs0)|]. split; [reflexivity|].
      split; [|discriminate]. intros _.
      split; [reflexivity|]. split; [reflexivity|].
      unfold session, getConnection. cbn. rewrite Hreg, lookup_insert_eq. reflexivity.
    + split; [exact (f_equal (fmap readyState) Hs0)|]. split; [reflexivity|].
      split; [discriminate|]. intros _.
      split; [reflexivity|]. split; [reflexivity|].
      unfold session, getConnection. cbn. rewrite Hreg, lookup_insert_eq. reflexivity.
  - destruct Hd as [Hd|[h Hh]]; [|congruence].
    change (clientOpen w0 (sock_clientWs s)) with (clientOpen w (sock_clientWs s)).
    destruct (clientOpen w (sock_clientWs s)) eqn:Hopen.
    + split; [exact (f_equal (fmap readyState) Hs0)|]. split; [reflexivity|].
      split; [|discriminate]. intros _.
      split; [reflexivity|]. split; [reflexivity|].
      unfold session, getConnection. cbn. rewrite Hreg, lookup_insert_eq.
      rewrite Hd. reflexivity.
    + split; [exact (f_equal (fmap readyState) Hs0)|]. split; [reflexivity|].
      split; [discriminate|]. intros _.
      split; [reflexivity|]. split; [reflexivity|].
      unfold session. rewrite Hget. cbn. rewrite Hd. reflexivity.
Qed.

(** X9.  An acknowledgment resets the watchdog: however stale the session's
    last acknowledgment was, after a pong at time [t] a tick at a time
    no more than 45 seconds later probes the socket and leaves it
    open. *)
Theorem pong_defers_watchdog
    (w : World) (g a h c : nat) (s : Socket) (d : ConnectionData)
    (env : Env) (t t' : Z) :
  sockets w !! g = Some s ->
  clientConnections w !! sock_clientWs s = Some a ->
  objects w !! a = Some d ->
  timers w !! h = Some (Watchdog c g a) ->
  geminiOpen w g = true ->
  t' - t <= PONG_TIMEOUT ->
  let w' := run decode [GeminiPongs g t; TimerFires h env t'] w in
  toGemini w' = toGemini w ++ [(g, Ping)] /\
  geminiOpen w' g = true /\
  objects w' !! a = Some (set_lastPing t' (set_lastPong t d)).
Proof.
  intros Hs Hreg Hobj Ht Hopen Hle. cbn [run fold_left step].
  assert (Hget : getConnection w (sock_clientWs s) = Some (a, d))
    by (apply getConnection_Some; split; assumption).
  unfold onGeminiPong. rewrite Hs, Hget.
  change (timers (putObject a (set_lastPong t d) w)) with (timers w).
  rewrite Ht. cbn [isInterval runTimer]. unfold watchdogTick.
  change (geminiOpen (putObject a (set_lastPong t d) w) g) with (geminiOpen w g).
  rewrite Hopen.
  change (objects (putObject a (set_lastPong t d) w)) with (<[a := set_lastPong t d]> (objects w)).
  rewrite lookup_insert_eq. cbn [lastPong set_lastPong].
  replace (PONG_TIMEOUT <? t' - t) with false by (symmetry; apply Z.ltb_ge; exact Hle).
  split; [reflexivity|]. split; [exact Hopen|].
  cbn. apply lookup_insert_eq.
Qed.

(** X10.  Every upstream event that parses is passed on to the client as it
    came, wrapped as [gemini_response], exactly when a session is
    registered for the socket's downstream connection and the client is
    open; nothing is ever written upstream in response.  A payload that
    does not parse changes nothing and is not passed on. *)
Theorem upstream_event_forwarded_verbatim
    (w : World) (g : nat) (s : Socket) (m : GeminiMessage) (now : Z) :
  sockets w !! g = Some s ->
  let c := sock_clientWs s in
  let w' := step decode (GeminiSends g (Some m) now) w in
  toClient w' =
    (if bool_decide (is_Some (session w c)) && clientOpen w c
     then toClient w ++ [(c, gemini_response m)]
     else toClient w) /\
  toGemini w' = toGemini w /\
  step decode (GeminiSends g None now) w = w.
Proof.
  intros Hs c w'. subst w' c. cbn [step]. unfold onGeminiMessage. rewrite Hs.
  unfold session.
  destruct (getConnection w (sock_clientWs s)) as [[a d]|];
    cbn [fmap option_fmap option_map].
  2: { rewrite bool_decide_eq_false_2 by (apply is_Some_None).
       repeat split; reflexivity. }
  rewrite bool_decide_eq_true_2 by eauto. cbn [andb].
  match goal with |- context [clientOpen ?wx (sock_clientWs s)] => set (w1 := wx) end.
  assert (E : clients w1 = clients w /\ toClient w1 = toClient w /\
              toGemini w1 = toGemini w)
    by (unfold w1; repeat case_match; repeat split; reflexivity).
  destruct E as (E1 & E2 & E3).
  assert (Hopen : clientOpen w1 (sock_clientWs s) = clientOpen w (sock_clientWs s))
    by (unfold clientOpen; rewrite E1; reflexivity).
  rewrite Hopen.
  destruct (clientOpen w (sock_clientWs s)); cbn [toClient toGemini sendClient set_toClient];
    rewrite ?E2, ?E3; repeat split; reflexivity.
Qed.

Lemma set_currentAssistantText_same (d : ConnectionData) :
  set_currentAssistantText (currentAssistantText d) d = d.
Proof. destruct d. reflexivity. Qed.

Lemma accumulate_audioOnly (parts : list Part) (acc : jsstring) :
  Forall audioOnly parts -> fold_left (accumulatePart decode) parts acc = acc.
Proof.
  intros H. revert acc. induction H as [|p parts [Ht Hi] _ IH]; intros acc; [reflexivity|].
  cbn [fold_left]. rewrite <- (IH acc) at 2. f_equal.
  unfold accumulatePart. rewrite Ht.
  destruct (inlineData p) as [i|]; [|reflexivity].
  unfold JsString.eqb. rewrite bool_decide_eq_false_2 by exact Hi. reflexivity.
Qed.

(** X11.  A model turn whose parts carry audio only adds nothing to the
    assistant accumulator, and when the accumulator holds nothing but
    white space the end of such a turn appends no entry: the session
    record and every log stay as they were, whether or not the event is
    marked turn-complete. *)
Theorem audio_only_turn_leaves_no_trace
    (w : World) (g : nat) (s : Socket) (d : ConnectionData)
    (parts : list Part) (complete : bool) (now : Z) :
  sockets w !! g = Some s ->
  session w (sock_clientWs s) = Some d ->
  Forall audioOnly parts ->
  JsString.blank (currentAssistantText d) ->
  let m := mkGeminiMessage (Some (mkServerContent (Some parts) complete)) in
  let w' := step decode (GeminiSends g (Some m) now) w in
  session w' (sock_clientWs s) = Some d /\
  arrays w' = arrays w.
Proof.
  intros Hs Hd Hparts Hblank m w'. subst w' m. cbn [step].
  apply session_Some in Hd as [a Hget].
  pose proof (proj1 (getConnection_Some _ _ _ _) Hget) as [Hreg Hobj].
  unfold onGeminiMessage. rewrite Hs, Hget.
  cbn [serverContent modelTurn turnComplete].
  rewrite accumulate_audioOnly by exact Hparts.
  rewrite set_currentAssistantText_same.
  rewrite (Trim.trim_blank _ Hblank). cbn [JsString.truthy].
  assert (Hput : putObject a d w = w).
  { destruct w. unfold putObject, set_objects. cbn in *. f_equal.
    apply insert_id. exact Hobj. }
  destruct complete; rewrite Hput;
    (destruct (clientOpen w (sock_clientWs s));
     (split; [unfold session; cbn; fold (getConnection w (sock_clientWs s));
              try (change (getConnection (sendClient _ _ w) (sock_clientWs s))
                     with (getConnection w (sock_clientWs s)));
              rewrite Hget; reflexivity
             | reflexivity])).
Qed.

(** X12.  At the end of an assistant turn with text to record, the log is cut
    back to the cap whatever its length was: it has at most 30 entries,
    the entry just pushed is the last one, and the entries before it are
    the most recent ones of the old log, in their order. *)
Theorem assistant_flush_restores_cap
    (w : World) (g c a : nat) (d : ConnectionData) (now : Z) :
  Attached w g c a d ->
  JsString.truthy (JsString.trim (currentAssistantText d)) = true ->
  let entry := mkEntry assistant (JsString.trim (currentAssistantText d)) now in
  let old := arrayAt w (conversationLog d) in
  let w' := step decode (GeminiSends g (Some turnCompleteEvent) now) w in
  exists log' dropped,
    sessionLog w' c = Some log' /\
    (length log' <= HISTORY_CAP)%nat /\
    old ++ [entry] = dropped ++ log' /\
    last log' = Some entry.
Proof.
  intros Ha Htext entry old w'. subst w'. cbn [step].
  destruct (turnComplete_flush_spec decode w g c a d now Ha Htext) as (R & A).
  set (full := old ++ [entry]).
  exists (trimHistory full), (take (length full - length (trimHistory full)) full).
  assert (Hcap := trimHistory_cap full). destruct Hcap as [Hlen Hdrop].
  split.
  { unfold sessionLog. rewrite (Attached_session _ _ _ _ _ R).
    cbn [fmap option_fmap option_map]. f_equal.
    unfold arrayAt. rewrite A. cbn [conversationLog set_currentAssistantText].
    rewrite lookup_insert_eq. reflexivity. }
  split; [exact Hlen|].
  assert (Hfull : length full = S (length old))
    by (unfold full; rewrite length_app; cbn; lia).
  split.
  { rewrite Hdrop at 2. rewrite Hdrop, length_drop.
    replace (length full - (length full - (length full - HISTORY_CAP)))%nat
      with (length full - HISTORY_CAP)%nat by lia.
    symmetry. apply take_drop. }
  rewrite Hdrop. unfold full in *.
  rewrite drop_app_le by (rewrite Hfull; unfold HISTORY_CAP; lia).
  apply last_snoc.
Qed.

End Upstream.

(* ------------------------------------------------------------------ *)
(** ** Downstream events *)

Section Downstream.

Variable decode : jsstring -> jsstring.

(** X13.  No downstream message reaches the life cycle of the upstream
    connection: whatever the message, the sockets and their states, the
    timers, the registry and the state of the clients are as before.
    At most one call is made upstream, and it is a [send] on the current
    socket of the session, which is open. *)
Theorem downstream_message_keeps_life_cycle
    (w : World) (c : nat) (m : option ClientMessage) (now : Z) :
  let w' := step decode (ClientSends c m now) w in
  sockets w' = sockets w /\
  timers w' = timers w /\
  clientConnections w' = clientConnections w /\
  clients w' = clients w /\
  exists calls,
    toGemini w' = toGemini w ++ calls /\
    (length calls <= 1)%nat /\
    Forall (fun x => currentGemini w c = Some (fst x) /\
                     geminiOpen w (fst x) = true /\
                     exists f, snd x = Send f) calls.
Proof.
  cbn [step]. unfold onClientMessage, alloc, currentGemini, session.
  assert (Hzero : forall o : option nat, exists calls,
            toGemini w = toGemini w ++ calls /\ (length calls <= 1)%nat /\
            Forall (fun x => o = Some (fst x) /\
                             geminiOpen w (fst x) = true /\
                             exists f, snd x = Send f) calls).
  { intros o. exists []. rewrite app_nil_r. split; [reflexivity|].
    split; [cbn; lia | constructor]. }
  destruct m as [data|]; [|repeat split; try reflexivity; apply Hzero].
  destruct (getConnection w c) as [[a d]|] eqn:Hget;
    [|repeat split; try reflexivity; apply Hzero].
  cbn [fmap option_fmap option_map snd].
  assert (Hone : forall f, geminiOpen w (gemini d) = true ->
            exists calls,
              toGemini w ++ [(gemini d, Send f)] = toGemini w ++ calls /\
              (length calls <= 1)%nat /\
              Forall (fun x => Some (gemini d) = Some (fst x) /\
                               geminiOpen w (fst x) = true /\
                               exists f, snd x = Send f) calls).
  { intros f Ho. exists [(gemini d, Send f)]. split; [reflexivity|].
    split; [cbn; lia|]. constructor; [|constructor].
    split; [reflexivity|]. split; [exact Ho | eexists; reflexivity]. }
  destruct data as [audio| | | |x|].
  - destruct (geminiOpen w (gemini d)) eqn:Ho; repeat split; try reflexivity;
      [apply (Hone _ eq_refl) | apply Hzero].
  - destruct (geminiOpen w (gemini d)) eqn:Ho.
    + destruct (JsString.truthy (JsString.trim (currentUserText d)));
        repeat split; try reflexivity; apply (Hone _ eq_refl).
    + repeat split; try reflexivity. apply Hzero.
  - destruct (geminiOpen w (gemini d)) eqn:Ho; repeat split; try reflexivity;
      [apply (Hone _ eq_refl) | apply Hzero].
  - cbn.
    match goal with |- context [clientOpen ?wx c] =>
      change (clientOpen wx c) with (clientOpen w c) end.
    destruct (clientOpen w c); repeat split; try reflexivity; apply Hzero.
  - destruct (JsString.truthy x); repeat split; try reflexivity; apply Hzero.
  - repeat split; try reflexivity. apply Hzero.
Qed.

(** X14.  In the world the downstream close handler leaves, the session is
    gone and both directions are silent: a message said to come from the
    client, and a pong, a message or an error of any upstream socket
    created for it, change nothing and are passed on to nobody. *)
Theorem torn_down_session_is_ignored
    (w : World) (c g : nat) (s : Socket)
    (m : option ClientMessage) (gm : option GeminiMessage)
    (msg : jsstring) (now : Z) :
  sockets w !! g = Some s ->
  sock_clientWs s = c ->
  let w' := step decode (ClientCloses c) w in
  session w' c = None /\
  step decode (ClientSends c m now) w' = w' /\
  step decode (GeminiPongs g now) w' = w' /\
  step decode (GeminiSends g gm now) w' = w' /\
  step decode (GeminiErrors g msg) w' = w'.
Proof.
  intros Hs Hc w'.
  set (w0 := set_clients (<[c:=CLOSED]> (clients w)) w).
  assert (Hnone : getConnection w' c = None /\ clientOpen w' c = false /\
                  exists s', sockets w' !! g = Some s' /\ sock_clientWs s' = c).
  { subst w'. cbn [step]. fold w0. unfold onClientClose.
    destruct (getConnection w0 c) as [[a d]|] eqn:Hget.
    - split; [|split].
      + unfold getConnection. cbn. rewrite lookup_delete_eq. reflexivity.
      + match goal with |- clientOpen ?wx c = false =>
          assert (E : clients wx = clients w0)
            by (destruct (reconnectTimeout d), (pingInterval d);
                cbn; repeat case_match; reflexivity)
        end.
        unfold clientOpen. rewrite E. unfold w0. cbn. rewrite lookup_insert_eq.
        apply bool_decide_eq_false. discriminate.
      + match goal with |- exists s', sockets ?wx !! g = Some s' /\ _ =>
          assert (E : sockets wx = sockets w \/
                      exists f, (forall x, sock_clientWs (f x) = sock_clientWs x) /\
                        sockets wx = alter f (gemini d) (sockets w))
        end.
        { destruct (reconnectTimeout d), (pingInterval d); cbn;
            repeat case_match; cbn; try (left; reflexivity);
            right; eexists; (split; [|reflexivity]);
            intros x; cbv beta; destruct (readyState x); reflexivity. }
        destruct E as [E|(f & Hf & E)]; rewrite E.
        * exists s. auto.
        * rewrite lookup_alter. case_decide as Hg.
          -- subst g. rewrite Hs. cbn. eexists. split; [reflexivity|]. rewrite Hf. exact Hc.
          -- exists s. auto.
    - split; [exact Hget|]. split.
      + unfold clientOpen, w0. cbn. rewrite lookup_insert_eq.
        apply bool_decide_eq_false. discriminate.
      + exists s. auto. }
  destruct Hnone as (Hget & Hclosed & s' & Hs' & Hc').
  split; [unfold session; rewrite Hget; reflexivity|].
  cbn [step]. unfold onClientMessage, onGeminiPong, onGeminiMessage, onGeminiError.
  rewrite Hs', Hc', Hget, Hclosed.
  repeat split; try reflexivity.
  - destruct m; reflexivity.
  - destruct gm; reflexivity.
Qed.

Lemma setupGeminiConnection_fresh w0 c b env now g w1 :
  session w0 c = None ->
  setupGeminiConnection c b env now w0 = Some (g, w1) ->
  exists cred d s,
    createGeminiConnection b env = Some cred /\
    session w1 c = Some d /\
    gemini d = g /\
    reconnectCount d = 0%nat /\
    sessionLog w1 c = Some [] /\
    sockets w1 = <[g := s]> (sockets w0) /\
    sock_credential s = cred /\
    readyState s = CONNECTING /\
    sock_clientWs s = c /\
    timers w1 = timers w0 /\
    clients w1 = clients w0 /\
    toClient w1 = toClient w0 /\
    toGemini w1 = toGemini w0.
Proof.
  intros Hnone E.
  destruct (setupGeminiConnection_spec _ _ _ _ _ _ _ E)
    as (cred & a & d' & Hc & _ & _ & Hreg & Hobj & Hg & Hcount & Hsock
        & Ht & Hcl & Htc & Htg & Hlog).
  rewrite Hnone in Hcount, Hlog. destruct Hlog as (Hl & Harr).
  assert (Hs : session w1 c = Some d').
  { apply session_Some. exists a. apply getConnection_Some.
    rewrite Hreg, Hobj, !lookup_insert_eq. split; reflexivity. }
  exists cred, d', (mkSocket CONNECTING c a (conversationLog d') cred).
  split; [exact Hc|]. split; [exact Hs|]. split; [exact Hg|].
  split; [exact Hcount|].
  split.
  { unfold sessionLog. rewrite Hs. cbn. unfold arrayAt.
    rewrite Harr, Hl, lookup_insert_eq. reflexivity. }
  split; [exact Hsock|]. repeat (split; [reflexivity|]).
  split; [exact Ht|]. split; [exact Hcl|]. split; [exact Htc | exact Htg].
Qed.

(** X15.  A new downstream connection gets its upstream socket from the
    first credential in this order: the token of the first attempt, the
    API key of the first attempt, the API key of the second attempt; the
    second attempt never asks for a token.  The session then starts
    with counter 0 and an empty log, its socket still connecting.  With
    none of the three, no session is registered and no socket is
    created.  Either way no timer is armed and nothing is sent. *)
Theorem first_connection_credential
    (w : World) (c : nat) (env1 env2 : Env) (now : Z) :
  session w c = None ->
  let w' := step decode (ClientConnects c env1 env2 now) w in
  timers w' = timers w /\
  toClient w' = toClient w /\
  toGemini w' = toGemini w /\
  match firstCredential env1 env2 with
  | Some cred =>
    exists g d s,
      session w' c = Some d /\
      gemini d = g /\
      reconnectCount d = 0%nat /\
      sessionLog w' c = Some [] /\
      sockets w' = <[g := s]> (sockets w) /\
      sock_credential s = cred /\
      readyState s = CONNECTING /\
      sock_clientWs s = c
  | None => session w' c = None /\ sockets w' = sockets w
  end.
Proof.
  intros Hnone. cbn [step]. unfold onConnection.
  set (w0 := set_clients (<[c:=OPEN]> (clients w)) w).
  assert (Hnone0 : session w0 c = None) by exact Hnone.
  pose proof (createGeminiConnection_outcome true env1) as O1.
  pose proof (createGeminiConnection_outcome false env2) as O2.
  cbv iota in O1, O2. unfold firstCredential.
  destruct (setupGeminiConnection c true env1 now w0) as [[g w1]|] eqn:E1.
  - destruct (setupGeminiConnection_fresh _ _ _ _ _ _ _ Hnone0 E1)
      as (cred & d & s & Hc & Hs & Hg & Hcount & Hlog & Hsock & Hcred & Hst
          & Hcw & Ht & _ & Htc & Htg).
    split; [exact Ht|]. split; [exact Htc|]. split; [exact Htg|].
    rewrite Hc in O1.
    assert (Hfirst : match usableToken env1, usableKey env1, usableKey env2 with
                     | Some t, _, _ => Some (Bearer t)
                     | None, Some k, _ => Some (ApiKey k)
                     | None, None, Some k => Some (ApiKey k)
                     | None, None, None => None
                     end = Some cred).
    { destruct (usableToken env1), (usableKey env1); try discriminate;
        symmetry; exact O1. }
    rewrite Hfirst. exists g, d, s. repeat split; assumption.
  - apply setupGeminiConnection_throws in E1. rewrite E1 in O1.
    assert (Hno : usableToken env1 = None /\ usableKey env1 = None).
    { destruct (usableToken env1), (usableKey env1); try discriminate.
      split; reflexivity. }
    destruct Hno as (-> & ->).
    destruct (setupGeminiConnection c false env2 now w0) as [[g w1]|] eqn:E2.
    + destruct (setupGeminiConnection_fresh _ _ _ _ _ _ _ Hnone0 E2)
        as (cred & d & s & Hc & Hs & Hg & Hcount & Hlog & Hsock & Hcred & Hst
            & Hcw & Ht & _ & Htc & Htg).
      split; [exact Ht|]. split; [exact Htc|]. split; [exact Htg|].
      rewrite Hc in O2.
      destruct (usableKey env2); [|discriminate].
      injection O2 as ->. exists g, d, s. repeat split; assumption.
    + apply setupGeminiConnection_throws in E2. rewrite E2 in O2.
      destruct (usableKey env2); [discriminate|].
      repeat split; try reflexivity. exact Hnone.
Qed.

End Downstream.

(* ------------------------------------------------------------------ *)
(** ** The further properties on the sample runs *)


Lemma log_entries_trimmed_nonempty_witness :
  ~ JsString.blank (JsString.lit "hola").
Proof.
  destruct (log_entries_trimmed_nonempty plainDecoder talkedTrace 0
              [mkEntry user (JsString.lit "hola") 205]
              (mkEntry user (JsString.lit "hola") 205))
    as (_ & _ & H);
    [vm_compute; reflexivity | left; reflexivity | exact H].
Defined.

Lemma no_call_on_socket_not_open_witness :
  callsOn 0
    (toGemini
       (step plainDecoder
          (ClientSends 0 (Some (audio_chunk (JsString.lit "AAAA"))) 3000)
          droppedWorld))
  = callsOn 0 (toGemini droppedWorld).
Proof.
  destruct (no_call_on_socket_not_open plainDecoder 0
              (ClientSends 0 (Some (audio_chunk (JsString.lit "AAAA"))) 3000)
              droppedWorld)
    as (H & _);
    [vm_compute; reflexivity | discriminate | exact H].
Defined.

Lemma one_upstream_attempt_per_client_witness :
  live reconnectedWorld 0 5 /\ ~ retry reconnectedWorld 0 4.
Proof.
  assert (Hlive : live reconnectedWorld 0 5).
  { exists (mkSocket CONNECTING 0 6 1 (Bearer (JsString.lit "ya29.token"))).
    split; [vm_compute; reflexivity|]. split; [reflexivity | discriminate]. }
  split; [exact Hlive|].
  destruct (one_upstream_attempt_per_client plainDecoder reconnectedTrace 0
              reconnectedTrace_legal) as (_ & _ & H).
  intros Hretry. exact (H 5%nat 4%nat Hlive Hretry).
Defined.

Lemma reestablished_session_keeps_log_only_witness :
  match setupGeminiConnection 0 true envToken 3300 silencedWorld with
  | Some (_, w') => sessionLog w' 0 = Some [mkEntry user (JsString.lit "hola") 205]
  | None => False
  end.
Proof.
  destruct (setupGeminiConnection 0 true envToken 3300 silencedWorld)
    as [[g w']|] eqn:E; [|vm_compute in E; discriminate].
  destruct (reestablished_session_keeps_log_only silencedWorld w' 0 g true
              envToken 3300 E) as (d' & _ & _ & _ & _ & _ & _ & _ & _ & _ & _ & H).
  assert (Hs : session silencedWorld 0
               = Some (mkConnectionData 0 (Some 4%nat) 1 None 100 100 [] [] 0 []))
    by (vm_compute; reflexivity).
  rewrite Hs in H. destruct H as (_ & H). rewrite H. vm_compute. reflexivity.
Defined.

Lemma upstream_close_reconnects_only_for_open_client_witness :
  timers (step plainDecoder (GeminiCloses 0) connectedWorld)
  = {[ 4%nat := Reconnect 0 ]}.
Proof.
  destruct (upstream_close_reconnects_only_for_open_client plainDecoder
              connectedWorld 0 2 connectedSocket connectedSession)
    as (_ & _ & H & _);
    [vm_compute; reflexivity | vm_compute; reflexivity | vm_compute; reflexivity | ].
  destruct (H ltac:(vm_compute; reflexivity)) as (Ht & _).
  rewrite Ht. vm_compute. reflexivity.
Defined.

Lemma pong_defers_watchdog_witness :
  geminiOpen
    (run plainDecoder [GeminiPongs 0 70000; TimerFires 3 envToken 100000]
       connectedWorld) 0
  = true.
Proof.
  destruct (pong_defers_watchdog plainDecoder connectedWorld 0 2 3 0
              connectedSocket connectedSession envToken 70000 100000)
    as (_ & H & _);
    [vm_compute; reflexivity | vm_compute; reflexivity | vm_compute; reflexivity
    | vm_compute; reflexivity | vm_compute; reflexivity
    | unfold PONG_TIMEOUT; lia | exact H].
Defined.

Lemma upstream_event_forwarded_verbatim_witness :
  toClient (step plainDecoder (GeminiSends 0 (Some turnCompleteEvent) 300)
              connectedWorld)
  = toClient connectedWorld ++ [(0%nat, gemini_response turnCompleteEvent)].
Proof.
  destruct (upstream_event_forwarded_verbatim plainDecoder connectedWorld 0
              connectedSocket turnCompleteEvent 300)
    as (H & _); [vm_compute; reflexivity | ].
  rewrite H. vm_compute. reflexivity.
Defined.

Lemma audio_only_turn_leaves_no_trace_witness :
  session
    (step plainDecoder
       (GeminiSends 0
          (Some (mkGeminiMessage
                   (Some (mkServerContent (Some [audioPart; audioPart]) true))))
          300) connectedWorld) 0
  = Some connectedSession.
Proof.
  destruct (audio_only_turn_leaves_no_trace plainDecoder connectedWorld 0
              connectedSocket connectedSession [audioPart; audioPart] true 300)
    as (H & _);
    [vm_compute; reflexivity | vm_compute; reflexivity
    | repeat constructor; discriminate | constructor | exact H].
Defined.

Lemma assistant_flush_restores_cap_witness :
  exists log',
    sessionLog
      (step plainDecoder (GeminiSends 0 (Some turnCompleteEvent) 303)
         answeringWorld) 0 = Some log' /\
    last log' = Some (mkEntry assistant (JsString.lit "Hola") 303).
Proof.
  destruct (assistant_flush_restores_cap plainDecoder answeringWorld 0 0 2
              (set_currentAssistantText (JsString.lit "Hola") connectedSession) 303)
    as (log' & dropped & H1 & _ & _ & H2).
  - split; [exists connectedSocket; split; vm_compute; reflexivity|].
    split; vm_compute; reflexivity.
  - vm_compute. reflexivity.
  - exists log'. split; [exact H1 | exact H2].
Defined.

Lemma torn_down_session_is_ignored_witness :
  step plainDecoder (GeminiSends 0 (Some turnCompleteEvent) 400)
    (step plainDecoder (ClientCloses 0) connectedWorld)
  = step plainDecoder (ClientCloses 0) connectedWorld.
Proof.
  destruct (torn_down_session_is_ignored plainDecoder connectedWorld 0 0
              connectedSocket None (Some turnCompleteEvent) [] 400)
    as (_ & _ & _ & H & _);
    [vm_compute; reflexivity | reflexivity | exact H].
Defined.

Lemma first_connection_credential_witness :
  exists g s,
    sockets (step plainDecoder (ClientConnects 0 envNothing envBoth 100) emptyWorld)
    = <[g := s]> (sockets emptyWorld) /\
    sock_credential s = ApiKey (JsString.lit "AIza.key").
Proof.
  destruct (first_connection_credential plainDecoder emptyWorld 0 envNothing
              envBoth 100 ltac:(vm_compute; reflexivity))
    as (_ & _ & _ & H).
  change (firstCredential envNothing envBoth)
    with (Some (ApiKey (JsString.lit "AIza.key"))) in H.
  destruct H as (g & d & s & _ & _ & _ & _ & Hsock & Hcred & _).
  exists g, s. split; [exact Hsock | exact Hcred].
Defined.
